(** * Realtime audio analysis module: spectrum pipeline and generic butterfly

    A shallow embedding of
    - [kf_bfly_generic] from [kiss_fft/_kiss_fft_guts.h], and
    - [Java_com_realtimeaudio_AudioEngine_computeFft] and
      [Java_com_realtimeaudio_AudioEngine_cleanupFft] from
      [audio-analysis-jni.cpp],
    together with the properties the specification states about them
    (C1 to C10), further properties of the two (X1 to X15), and the
    [FIXED_POINT] arithmetic macros of [_kiss_fft_guts.h] with their range
    and rounding properties (X16 to X18).

    Conventions.
    - A C [int] (and a JNI [jint]) is a [Z].  Where an operation can leave
      the 32-bit range the result is reduced with [to_int]: this is what the
      conversion of a [size_t] to [int] does on the compilers in use, and
      what the hardware does for a signed addition (which the C standard
      leaves undefined).  [nfft - 1], [nfft / 2] and [nfft / 2 + 1] cannot
      overflow for a positive [jint] and are written as they are; [/] on
      [int] is [÷], the quotient that truncates towards zero.
    - A C array reached through a pointer, and a [std::vector] indexed with
      [[]], is a [list]; an access outside the list is undefined behaviour
      and is modelled as failure ([None]), so that a result [Some _] says
      that every access of the run was in bounds.
    - Floating-point arithmetic is not interpreted: the scalar types and
      their operations are parameters, every statement holds for any
      rounding behaviour of the target, and the operations and their order
      are those of the source expressions (a compiler that fuses a product
      and a sum, or keeps excess precision, is outside the model).
    - Exhaustion of memory other than a null result of [kiss_fftr_alloc]
      (a null [malloc] for the scratch buffer, a throwing [resize]) is not
      modelled.

    The file has the model first (machine integers and loops, the butterfly,
    the fixed-point macros, the pipeline, two interpretations to run them)
    and then the proofs. *)

From Stdlib Require Import ZArith Lia.
From stdpp Require Import base tactics option list list_numbers.

Local Open Scope Z_scope.

(** ** Machine integers and arrays *)

(** Conversion of an unsigned result to a 32-bit [int]: reduction modulo 2^32
    into [-2^31, 2^31).  [size_t] arithmetic is modulo 2^32 or 2^64, both
    multiples of 2^32, so converting the exact sum gives the same [int]. *)
Definition to_int (z : Z) : Z := (z + 2147483648) mod 4294967296 - 2147483648.

(** [a[k]] read through a pointer. *)
Definition load {A} (a : list A) (k : Z) : option A :=
  if bool_decide (0 ≤ k) then a !! Z.to_nat k else None.

(** [a[k] = v] written through a pointer. *)
Definition store {A} (a : list A) (k : Z) (v : A) : option (list A) :=
  if bool_decide (0 ≤ k < Z.of_nat (length a))
  then Some (<[Z.to_nat k := v]> a) else None.

(** [for (i = lo; ...; ++i) body], run for [n] iterations, stopping at the
    first failing iteration. *)
Fixpoint for_loop {S} (n : nat) (lo : Z) (body : Z → S → option S) (s : S)
  : option S :=
  match n with
  | O => Some s
  | S n' => s' ← body lo s; for_loop n' (lo + 1) body s'
  end.

(** [for (i = lo; i < hi; ++i) body]. *)
Definition for_range {S} (lo hi : Z) (body : Z → S → option S) (s : S)
  : option S :=
  for_loop (Z.to_nat (hi - lo)) lo body s.

Global Arguments to_int : simpl never.
Global Arguments load : simpl never.
Global Arguments store : simpl never.

(** ** [_kiss_fft_guts.h] *)

Module KissFFT.

Section Guts.
(** [kiss_fft_scalar] and the three operations the complex macros use. *)
Context {kiss_fft_scalar : Type}.
Variables s_add s_sub s_mul : kiss_fft_scalar → kiss_fft_scalar → kiss_fft_scalar.

Record kiss_fft_cpx := Cpx { r : kiss_fft_scalar; i : kiss_fft_scalar }.

Record kiss_fft_state := State {
  nfft : Z;
  inverse : Z;
  factors : list Z;
  twiddles : list kiss_fft_cpx
}.

(** [C_MUL(m,a,b)], floating-point build. *)
Definition C_MUL (a b : kiss_fft_cpx) : kiss_fft_cpx :=
  Cpx (s_sub (s_mul (r a) (r b)) (s_mul (i a) (i b)))
      (s_add (s_mul (r a) (i b)) (s_mul (i a) (r b))).

(** [C_ADDTO(res,a)]: the new value of [res]. *)
Definition C_ADDTO (res a : kiss_fft_cpx) : kiss_fft_cpx :=
  Cpx (s_add (r res) (r a)) (s_add (i res) (i a)).

(** [C_FIXDIV(c,div)] is empty unless [FIXED_POINT] is defined. *)
Definition C_FIXDIV (c : kiss_fft_cpx) (div : Z) : kiss_fft_cpx := c.

(** The scratch buffer comes from [malloc]: a cell holds nothing until it
    is written, and reading such a cell fails. *)
Definition load_scratch (scratch : list (option kiss_fft_cpx)) (q : Z)
  : option kiss_fft_cpx :=
  c ← load scratch q; c.

(** [twidx += fstride * k; if (twidx >= Norig) twidx -= Norig;] *)
Definition twidx_step (fstride Norig k twidx : Z) : Z :=
  let t := to_int (twidx + fstride * k) in
  if bool_decide (Norig ≤ t) then to_int (t - Norig) else t.

Global Arguments twidx_step : simpl never.

(** Body of the first [q1] loop: [scratch[q1] = Fout[k]; k += m]. *)
Definition gather_body (m p : Z) (q1 : Z)
    (s : list kiss_fft_cpx * list (option kiss_fft_cpx) * Z)
  : option (list kiss_fft_cpx * list (option kiss_fft_cpx) * Z) :=
  let '(Fout, scratch, k) := s in
  v ← load Fout k;
  scratch' ← store scratch q1 (Some (C_FIXDIV v p));
  Some (Fout, scratch', to_int (k + m)).

(** Body of the [q] loop. *)
Definition inner_body (fstride Norig : Z) (tw : list kiss_fft_cpx)
    (scratch : list (option kiss_fft_cpx)) (k : Z) (q : Z)
    (s : list kiss_fft_cpx * Z) : option (list kiss_fft_cpx * Z) :=
  let '(Fout, twidx) := s in
  let twidx := twidx_step fstride Norig k twidx in
  sq ← load_scratch scratch q;
  w ← load tw twidx;
  let t := C_MUL sq w in
  cur ← load Fout k;
  Fout' ← store Fout k (C_ADDTO cur t);
  Some (Fout', twidx).

(** Body of the second [q1] loop. *)
Definition output_body (fstride Norig : Z) (tw : list kiss_fft_cpx)
    (scratch : list (option kiss_fft_cpx)) (m p : Z) (q1 : Z)
    (s : list kiss_fft_cpx * Z) : option (list kiss_fft_cpx * Z) :=
  let '(Fout, k) := s in
  s0 ← load_scratch scratch 0;
  Fout ← store Fout k s0;
  '(Fout, _) ← for_range 1 p (inner_body fstride Norig tw scratch k) (Fout, 0);
  Some (Fout, to_int (k + m)).

(** Body of the [u] loop. *)
Definition lane_body (fstride Norig : Z) (tw : list kiss_fft_cpx) (m p : Z)
    (u : Z) (s : list kiss_fft_cpx * list (option kiss_fft_cpx))
  : option (list kiss_fft_cpx * list (option kiss_fft_cpx)) :=
  let '(Fout, scratch) := s in
  '(Fout, scratch, _) ← for_range 0 p (gather_body m p) (Fout, scratch, u);
  '(Fout, _) ← for_range 0 p (output_body fstride Norig tw scratch m p) (Fout, u);
  Some (Fout, scratch).

Definition kf_bfly_generic (Fout : list kiss_fft_cpx) (fstride : Z)
    (st : kiss_fft_state) (m p : Z) : option (list kiss_fft_cpx) :=
  let tw := twiddles st in
  let Norig := nfft st in
  let scratch := replicate (Z.to_nat p) None in
  '(Fout, _) ← for_range 0 m (lane_body fstride Norig tw m p) (Fout, scratch);
  Some Fout.

(** *** What the specification says the butterfly computes *)

(** The twiddle index of term [q] for the output at index [k]. *)
Definition tw_index (fstride Norig k q : Z) : Z := (q * fstride * k) mod Norig.

(** The sum over [q] in [[0, p)] of [x q] times the twiddle factor at
    [tw_index k q], the term [q = 0] contributing [x 0] itself; terms are
    added in increasing [q]. *)
Definition lane_sum (x : Z → option kiss_fft_cpx) (tw : list kiss_fft_cpx)
    (fstride Norig k p : Z) : option kiss_fft_cpx :=
  foldl (λ acc q,
           a ← acc; xq ← x q; w ← load tw (tw_index fstride Norig k q);
           Some (C_ADDTO a (C_MUL xq w)))
        (x 0) (seqZ 1 (p - 1)).

(** Output position [j] of lane [u]: the sum over the values gathered from
    [Fout] at stride [m] starting at [u]. *)
Definition lane_dft (Fout tw : list kiss_fft_cpx) (fstride Norig m p u j : Z)
  : option kiss_fft_cpx :=
  lane_sum (λ q, load Fout (u + q * m)) tw fstride Norig (u + j * m) p.

(** The running twiddle index after [q] rounds of the [q] loop. *)
Definition twidx_at (fstride Norig k : Z) (q : nat) : Z :=
  Nat.iter q (twidx_step fstride Norig k) 0.

End Guts.

Arguments kiss_fft_cpx : clear implicits.
Arguments kiss_fft_state : clear implicits.

End KissFFT.

(** ** [_kiss_fft_guts.h], the [FIXED_POINT] macros *)

Module FixedPoint.
Import KissFFT.

Section Macros.
(** The value of the macro [FIXED_POINT]: 32 selects [int32_t] samples with
    [int64_t] products, any other value [int16_t] samples with [int32_t]
    products. *)
Variable FIXED_POINT : Z.

Definition FRACBITS : Z := if bool_decide (FIXED_POINT = 32) then 31 else 15.

Definition SAMP_MAX : Z :=
  if bool_decide (FIXED_POINT = 32) then 2147483647 else 32767.

Definition SAMP_MIN : Z := - SAMP_MAX.

(** Conversion to a signed integer of [w] bits. *)
Definition wrap (w z : Z) : Z := (z + 2 ^ (w - 1)) mod 2 ^ w - 2 ^ (w - 1).

(** [(kiss_fft_scalar)] and [(SAMPPROD)]. *)
Definition to_scalar (z : Z) : Z := wrap (FRACBITS + 1) z.
Definition to_prod (z : Z) : Z := wrap (2 * (FRACBITS + 1)) z.

(** [smul(a,b)]: the product in [SAMPPROD]. *)
Definition smul (a b : Z) : Z := to_prod (to_prod a * b).

(** [sround(x)]: add half a unit, shift the fraction out, convert. *)
Definition sround (x : Z) : Z :=
  to_scalar (Z.shiftr (to_prod (x + Z.shiftl 1 (FRACBITS - 1))) FRACBITS).

Definition S_MUL (a b : Z) : Z := sround (smul a b).

Definition C_MUL (a b : kiss_fft_cpx Z) : kiss_fft_cpx Z :=
  Cpx (sround (to_prod (smul (r a) (r b) - smul (i a) (i b))))
      (sround (to_prod (smul (r a) (i b) + smul (i a) (r b)))).

(** [DIVSCALAR(x,k)]: the new value of [x]; [SAMP_MAX / k] is an [int]
    division, undefined for [k = 0]. *)
Definition DIVSCALAR (x k : Z) : option Z :=
  if bool_decide (k = 0) then None else Some (sround (smul x (SAMP_MAX ÷ k))).

Definition C_FIXDIV (c : kiss_fft_cpx Z) (div : Z) : option (kiss_fft_cpx Z) :=
  re ← DIVSCALAR (r c) div;
  im ← DIVSCALAR (i c) div;
  Some (Cpx re im).

Definition C_MULBYSCALAR (c : kiss_fft_cpx Z) (s : Z) : kiss_fft_cpx Z :=
  Cpx (sround (smul (r c) s)) (sround (smul (i c) s)).

End Macros.
End FixedPoint.

(** ** [audio-analysis-jni.cpp] *)

Module AudioEngine.

Import KissFFT.

(** [float] and [double] arithmetic as the pipeline uses it.  The literals
    [0.5f], [1.0f], [2.0f] and the value a [std::vector<float>] gives a new
    element are constants of the interface; conversions are explicit. *)
Class FloatOps (float double : Type) := {
  f_zero : float;
  f_half : float;
  f_one : float;
  f_two : float;
  f_add : float → float → float;
  f_sub : float → float → float;
  f_mul : float → float → float;
  f_div : float → float → float;
  sqrtf : float → float;
  cosf : float → float;
  float_of_int : Z → float;
  float_of_double : double → float;
  double_of_float : float → double;
  double_of_int : Z → double;
  d_mul : double → double → double;
  d_div : double → double → double;
  M_PI : double
}.

(** Modelled from the spec: the forward real transform, [kiss_fftr_alloc] and
    [kiss_fftr] of [kiss_fftr.h], whose code is not among the sources.  A
    configuration is what [kiss_fftr_alloc(nfft, inverse_fft, NULL, NULL)]
    returns ([None] for [NULL]), as a function of the size: exhaustion of the
    heap between two calls is not modelled.  [kiss_fftr cfg timedata] is the
    sequence of bins the transform stores through [freqdata]; by the contract
    of section 6 (and the header: "output freqdata has nfft/2+1 complex
    points") there are exactly [nfft/2 + 1] of them. *)
Class RealFFT (float : Type) := {
  kiss_fftr_state : Type;
  kiss_fftr_alloc : Z → Z → option kiss_fftr_state;
  kiss_fftr : kiss_fftr_state → list float → list (kiss_fft_cpx float);
  kiss_fftr_bins : ∀ nfft inverse_fft c timedata,
    kiss_fftr_alloc nfft inverse_fft = Some c →
    length (kiss_fftr c timedata) = Z.to_nat (nfft ÷ 2 + 1)
}.

Section Pipeline.
Context {float double : Type} `{!FloatOps float double} `{!RealFFT float}.

(** The file's global state. *)
Record globals := Globals {
  cfg : option kiss_fftr_state;
  current_nfft : Z;
  window : list float;
  fft_out : list (kiss_fft_cpx float);
  fft_in : list float
}.

(** The state the initialisers give: [cfg = nullptr], [current_nfft = 0]
    and three empty vectors. *)
Definition initial : globals := Globals None 0 [] [] [].

(** A Java [float[]] as the native side sees it: its elements, and whether
    [GetFloatArrayElements] hands them out (a null result otherwise). *)
Record jfloatArray := JFloatArray {
  elements : list float;
  accessible : bool
}.

(** What a call does to the world outside the global state. *)
Inductive event :=
| Free (c : kiss_fftr_state)
| ReadInput (i : Z)
| WriteOutput (i : Z).

(** [0.5f * (1.0f - cosf(2.0f * M_PI * i / (nfft - 1)))]: the product
    [2.0f * M_PI], the product with [i] and the quotient are [double]
    operations, the argument of [cosf] is converted to [float]. *)
Definition hann (nfft i : Z) : float :=
  f_mul f_half
    (f_sub f_one
       (cosf (float_of_double
          (d_div (d_mul (d_mul (double_of_float f_two) M_PI) (double_of_int i))
                 (double_of_int (nfft - 1)))))).

(** [if (cfg) free(cfg);] *)
Definition free_cfg (g : globals) : list event :=
  match cfg g with Some c => [Free c] | None => [] end.

(** Step 1, lines 21-39.  The result is the new state, the events, and
    whether the call goes on ([false] for the [return] after a failed
    allocation). *)
Definition ensure (g : globals) (nfft : Z)
  : option (globals * list event * bool) :=
  if match cfg g with
     | None => true
     | Some _ => bool_decide (current_nfft g ≠ nfft)
     end
  then
    let freed := free_cfg g in
    match kiss_fftr_alloc nfft 0 with
    | None =>
        Some (Globals None (current_nfft g) (window g) (fft_out g) (fft_in g),
              freed, false)
    | Some c =>
        let window := resize (Z.to_nat nfft) f_zero (window g) in
        let fft_in := resize (Z.to_nat nfft) f_zero (fft_in g) in
        let fft_out :=
          resize (Z.to_nat (nfft ÷ 2 + 1)) (Cpx f_zero f_zero) (fft_out g) in
        window ← for_range 0 nfft (λ i w, store w i (hann nfft i)) window;
        Some (Globals (Some c) nfft window fft_out fft_in, freed, true)
    end
  else Some (g, [], true).

(** Step 3: [fft_in[i] = inData[i] * window[i]]. *)
Definition window_body (inData window : list float) (i : Z)
    (s : list float * list event) : option (list float * list event) :=
  let '(fft_in, log) := s in
  x ← load inData i;
  w ← load window i;
  fft_in ← store fft_in i (f_mul x w);
  Some (fft_in, log ++ [ReadInput i]).

(** Step 4.  [kiss_fftr] reads [nfft] samples through [fft_in.data()] and
    stores its bins through [fft_out.data()]; more bins than the vector
    holds would be written past its end. *)
Definition store_bins (bins buf : list (kiss_fft_cpx float))
  : option (list (kiss_fft_cpx float)) :=
  if bool_decide (length bins ≤ length buf)%nat
  then Some (bins ++ drop (length bins) buf) else None.

(** Step 5: [outData[i] = sqrtf(re * re + im * im) / (float)(nfft / 2)]. *)
Definition magnitude (nfft : Z) (c : kiss_fft_cpx float) : float :=
  let re := r c in
  let im := i c in
  let mag := sqrtf (f_add (f_mul re re) (f_mul im im)) in
  f_div mag (float_of_int (nfft ÷ 2)).

Definition magnitude_body (nfft : Z) (fft_out : list (kiss_fft_cpx float))
    (i : Z) (s : list float * list event) : option (list float * list event) :=
  let '(outData, log) := s in
  c ← load fft_out i;
  outData ← store outData i (magnitude nfft c);
  Some (outData, log ++ [WriteOutput i]).

(** [Java_com_realtimeaudio_AudioEngine_computeFft]: the new global state,
    the elements of [output] after the call and the events of the call;
    [None] when the call reads or writes outside an array. *)
Definition computeFft (g : globals) (input output : jfloatArray) (nfft : Z)
  : option (globals * list float * list event) :=
  if bool_decide (nfft ≤ 0) then Some (g, elements output, []) else
  '(g, log, continue) ← ensure g nfft;
  if negb continue then Some (g, elements output, log) else
  if negb (accessible input && accessible output)
  then Some (g, elements output, log) else
  match cfg g with
  | None => Some (g, elements output, log)
  | Some c =>
      let inData := elements input in
      let outData := elements output in
      '(fft_in, log) ← for_range 0 nfft (window_body inData (window g))
                         (fft_in g, log);
      fft_out ← store_bins (kiss_fftr c (take (Z.to_nat nfft) fft_in))
                  (fft_out g);
      let outSize := Z.of_nat (length (elements output)) in
      let bins := Z.min outSize (nfft ÷ 2) in
      '(outData, log) ← for_range 0 bins (magnitude_body nfft fft_out)
                          (outData, log);
      Some (Globals (cfg g) (current_nfft g) (window g) fft_out fft_in,
            outData, log)
  end.

(** [Java_com_realtimeaudio_AudioEngine_cleanupFft]. *)
Definition cleanupFft (g : globals) : globals * list event :=
  (Globals None 0 (window g) (fft_out g) (fft_in g), free_cfg g).

(** The states the module can be in: the initial one, and those the two
    entry points lead to. *)
Inductive reachable : globals → Prop :=
| reachable_initial : reachable initial
| reachable_computeFft g input output nfft g' out log :
    reachable g →
    computeFft g input output nfft = Some (g', out, log) →
    reachable g'
| reachable_cleanupFft g :
    reachable g → reachable (cleanupFft g).1.

(** *** What the specification says *)

(** The coefficient of section 4.2, [0.5 * (1 - cos(2π·i / (n - 1)))]. *)
Definition two_pi : double := d_mul (double_of_float f_two) M_PI.

Definition hann_coefficient (n i : Z) : float :=
  f_mul f_half
    (f_sub f_one
       (cosf (float_of_double
          (d_div (d_mul two_pi (double_of_int i)) (double_of_int (n - 1)))))).

(** The window table for size [n]: the coefficients at [0, ..., n - 1]. *)
Definition hann_table (n : Z) : list float := hann_coefficient n <$> seqZ 0 n.

(** [input[i] * window[i]] for [i] in [[0, nfft)]. *)
Definition windowed (nfft : Z) (inData : list float) : list float :=
  zip_with f_mul (take (Z.to_nat nfft) inData) (hann_table nfft).

(** [bins = min(output.capacity, nfft / 2)]. *)
Definition bins_of (output : jfloatArray) (nfft : Z) : Z :=
  Z.min (Z.of_nat (length (elements output))) (nfft ÷ 2).

(** The indices a call reads from [input] and writes to [output]. *)
Definition reads (log : list event) : list Z :=
  omap (λ e, match e with ReadInput i => Some i | _ => None end) log.

Definition writes (log : list event) : list Z :=
  omap (λ e, match e with WriteOutput i => Some i | _ => None end) log.

(** The configurations a call passes to [free]. *)
Definition frees (log : list event) : list kiss_fftr_state :=
  omap (λ e, match e with Free c => Some c | _ => None end) log.

(** The data-model invariant of section 3, for the cached size [n]. *)
Definition sized_for (g : globals) (n : Z) : Prop :=
  Z.of_nat (length (window g)) = n ∧
  Z.of_nat (length (fft_in g)) = n ∧
  Z.of_nat (length (fft_out g)) = n ÷ 2 + 1.

(** What holds of every reachable state: a non-zero cached size is the
    size the three buffers and the window table were built for, and a held
    configuration is the one for the cached size. *)
Definition consistent (g : globals) : Prop :=
  (current_nfft g ≠ 0 →
     0 < current_nfft g ∧ sized_for g (current_nfft g) ∧
     window g = hann_table (current_nfft g)) ∧
  (∀ c, cfg g = Some c →
     current_nfft g ≠ 0 ∧ kiss_fftr_alloc (current_nfft g) 0 = Some c).

End Pipeline.

Arguments globals float {_}.
Arguments jfloatArray : clear implicits.
Arguments event float {_}.

End AudioEngine.

(** ** Interpretations used to run the model *)

(** Exact complex integers: the table of the fourth roots of unity
    [exp(-2πi·k/4)] is exact in them. *)
Module Exact.
Import KissFFT.

Definition kf_bfly_generic := @kf_bfly_generic Z Z.add Z.sub Z.mul.
Definition lane_dft := @lane_dft Z Z.add Z.sub Z.mul.

Definition twiddles4 : list (kiss_fft_cpx Z) :=
  [Cpx 1 0; Cpx 0 (-1); Cpx (-1) 0; Cpx 0 1].

Definition st4 : kiss_fft_state Z := State 4 0 [4; 1] twiddles4.

Definition ramp : list (kiss_fft_cpx Z) :=
  [Cpx 1 0; Cpx 2 0; Cpx 3 0; Cpx 4 0].

(** A transform of 2147483646 = 2 * 3 * 3 * 7 * 11 * 31 * 151 * 331 points.
    The radix-7 layer is the first with no specialised butterfly: it comes
    after the factors 2, 3, 3, so [fstride = 18], and combines
    [m = 17043521] lanes. *)
Definition big_nfft : Z := 2147483646.
Definition big_fstride : Z := 18.
Definition big_m : Z := 17043521.
Definition big_p : Z := 7.
Definition big_array : list (kiss_fft_cpx Z) :=
  replicate (Z.to_nat big_nfft) (Cpx 0 0).
Definition big_st : kiss_fft_state Z :=
  State big_nfft 0
    [2; 1073741823; 3; 357913941; 3; 119304647; 7; 17043521;
     11; 1549411; 31; 49981; 151; 331; 331; 1]
    big_array.
End Exact.

(** The free interpretation of the arithmetic: a value is the expression
    that computes it, so a run of the model shows which operations the code
    applies, in which order, to which samples. *)
Module Symbolic.
Import KissFFT AudioEngine.

Inductive term :=
| Sample (n : Z)
| Lit (num den : Z)
| Pi
| Add (a b : term)
| Sub (a b : term)
| Mul (a b : term)
| Div (a b : term)
| Sqrt (a : term)
| Cos (a : term)
| OfInt (z : Z)
| ToFloat (a : term)
| ToDouble (a : term)
| Stop
| Seq (a rest : term)
| Bin (imaginary : bool) (k : Z) (nfft : Z) (timedata : term).

#[export] Instance term_ops : FloatOps term term := {|
  f_zero := Lit 0 1;
  f_half := Lit 1 2;
  f_one := Lit 1 1;
  f_two := Lit 2 1;
  f_add := Add;
  f_sub := Sub;
  f_mul := Mul;
  f_div := Div;
  sqrtf := Sqrt;
  cosf := Cos;
  float_of_int := OfInt;
  float_of_double := ToFloat;
  double_of_float := ToDouble;
  double_of_int := OfInt;
  d_mul := Mul;
  d_div := Div;
  M_PI := Pi
|}.

(** A configuration is its size; as in the library, only an even size has
    one. *)
Definition alloc (nfft inverse_fft : Z) : option Z :=
  if bool_decide (0 < nfft) && Z.even nfft then Some nfft else None.

Definition fftr (c : Z) (timedata : list term) : list (kiss_fft_cpx term) :=
  let t := foldr Seq Stop timedata in
  (λ k, Cpx (Bin false k c t) (Bin true k c t)) <$> seqZ 0 (c ÷ 2 + 1).

Lemma fftr_bins nfft inverse_fft c timedata :
  alloc nfft inverse_fft = Some c →
  length (fftr c timedata) = Z.to_nat (nfft ÷ 2 + 1).
Proof.
  unfold alloc, fftr. intros Hc.
  destruct (bool_decide (0 < nfft) && Z.even nfft); [|done].
  injection Hc as <-. by rewrite length_fmap, length_seqZ.
Qed.

#[export] Instance term_fft : RealFFT term := {|
  kiss_fftr_state := Z;
  kiss_fftr_alloc := alloc;
  kiss_fftr := fftr;
  kiss_fftr_bins := fftr_bins
|}.

Definition samples (n : Z) : jfloatArray term :=
  JFloatArray (Sample <$> seqZ 0 n) true.

Definition zeros (n : nat) : jfloatArray term :=
  JFloatArray (replicate n (Lit 0 1)) true.

(** One call with [nfft = 4] from the initial state, on an output array of
    capacity 2: the state, the output and the events it leaves. *)
Definition run4 : option (globals term * list term * list (event term)) :=
  computeFft initial (samples 4) (zeros 2) 4.

Definition globals4 : globals term :=
  match run4 with Some (g, _, _) => g | None => initial end.

Definition output4 : list term :=
  match run4 with Some (_, out, _) => out | None => [] end.

Definition log4 : list (event term) :=
  match run4 with Some (_, _, log) => log | None => [] end.
End Symbolic.

(** ** Basic facts about machine integers, arrays and loops *)

Lemma to_int_id z : -2147483648 ≤ z < 2147483648 → to_int z = z.
Proof.
  intros Hz. unfold to_int.
  rewrite Z.mod_small by lia. lia.
Qed.

Lemma load_Some {A} (a : list A) k v :
  load a k = Some v ↔ 0 ≤ k ∧ a !! Z.to_nat k = Some v.
Proof.
  unfold load. case_bool_decide; split; try done.
  - by intros [].
  - by intros [? _].
Qed.

Lemma load_lt {A} (a : list A) k :
  0 ≤ k < Z.of_nat (length a) → is_Some (load a k).
Proof.
  intros Hk. unfold load. rewrite bool_decide_true by lia.
  apply lookup_lt_is_Some. lia.
Qed.

Lemma load_neg {A} (a : list A) k : k < 0 → load a k = None.
Proof. intros Hk. unfold load. by rewrite bool_decide_false by lia. Qed.

Lemma store_Some {A} (a a' : list A) k v :
  store a k v = Some a' ↔
  0 ≤ k < Z.of_nat (length a) ∧ a' = <[Z.to_nat k := v]> a.
Proof.
  unfold store. case_bool_decide; split.
  - by intros [= <-].
  - by intros [_ ->].
  - done.
  - by intros [? _].
Qed.

Lemma store_lt {A} (a : list A) k v :
  0 ≤ k < Z.of_nat (length a) → store a k v = Some (<[Z.to_nat k := v]> a).
Proof. intros Hk. unfold store. by rewrite bool_decide_true. Qed.

Lemma load_insert_eq {A} (a : list A) k v :
  0 ≤ k < Z.of_nat (length a) → load (<[Z.to_nat k := v]> a) k = Some v.
Proof.
  intros Hk. unfold load. rewrite bool_decide_true by lia.
  apply list_lookup_insert_eq. lia.
Qed.

Lemma load_insert_ne {A} (a : list A) k k' v :
  0 ≤ k → k ≠ k' → load (<[Z.to_nat k := v]> a) k' = load a k'.
Proof.
  intros Hk Hne. unfold load. case_bool_decide; [|done].
  apply list_lookup_insert_ne. lia.
Qed.

Lemma for_loop_snoc {S} n lo (body : Z → S → option S) s :
  for_loop (Datatypes.S n) lo body s =
  for_loop n lo body s ≫= body (lo + Z.of_nat n).
Proof.
  revert lo s. induction n as [|n IH]; intros lo s.
  - simpl. rewrite Z.add_0_r. by destruct (body lo s).
  - change (for_loop (Datatypes.S (Datatypes.S n)) lo body s)
      with (body lo s ≫= for_loop (Datatypes.S n) (lo + 1) body).
    change (for_loop (Datatypes.S n) lo body s)
      with (body lo s ≫= for_loop n (lo + 1) body).
    destruct (body lo s) as [s'|]; [|done].
    change (for_loop (Datatypes.S n) (lo + 1) body s' =
            for_loop n (lo + 1) body s' ≫= body (lo + Z.of_nat (Datatypes.S n))).
    rewrite IH. f_equal. f_equal. lia.
Qed.

(** ** The generic butterfly *)

Import KissFFT.

Lemma lane_index_range m p u j :
  0 ≤ u < m → 0 ≤ j < p → 0 ≤ u + j * m < m * p.
Proof. intros Hu Hj. nia. Qed.

Lemma lane_index_inj m u j u' j' :
  0 ≤ u < m → 0 ≤ u' < m → u + j * m = u' + j' * m → u = u' ∧ j = j'.
Proof.
  intros Hu Hu' Heq.
  assert (u = u') as ->.
  { rewrite <- (Z.mod_small u m), <- (Z.mod_small u' m) by lia.
    rewrite <- (Z.mod_add u j m), <- (Z.mod_add u' j' m) by lia.
    by rewrite Heq. }
  split; [done|]. nia.
Qed.

Lemma lane_size_bound fstride Norig m p :
  0 < Norig → 1 ≤ m → 1 ≤ p → fstride * m * p = Norig → m * p ≤ Norig.
Proof. intros HN Hm Hp Hdec. assert (1 ≤ fstride) by nia. nia. Qed.

Lemma stride_le_size m p : 1 ≤ m → 1 ≤ p → m ≤ m * p.
Proof. intros Hm Hp. nia. Qed.

Lemma stride_index_bound fstride Norig m p k :
  0 < Norig → 1 ≤ m → 1 ≤ p → fstride * m * p = Norig →
  0 ≤ k < m * p → 0 ≤ fstride * k < Norig.
Proof. intros HN Hm Hp Hdec Hk. assert (1 ≤ fstride) by nia. nia. Qed.

(** Symbolic execution of a chain of array accesses towards a failure: the
    access at the head of the chain either is at a negative index, and fails,
    or is split into its two outcomes. *)
Ltac head_of t :=
  lazymatch t with
  | mbind _ ?x => head_of x
  | _ => t
  end.

Ltac norm_int :=
  repeat match goal with
  | |- context [KissFFT.twidx_step ?a ?b ?c ?d] =>
      let v := eval vm_compute in (KissFFT.twidx_step a b c d) in
      change (KissFFT.twidx_step a b c d) with v
  | |- context [to_int ?z] =>
      let v := eval vm_compute in (to_int z) in
      change (to_int z) with v
  end.

Ltac run_head :=
  norm_int;
  lazymatch goal with
  | |- ?lhs = None =>
      let h := head_of lhs in
      lazymatch h with
      | None => reflexivity
      | load ?a ?k =>
          first [ rewrite (load_neg a k) by lia; reflexivity
                | destruct h; simpl; [|reflexivity] ]
      | for_range _ _ _ _ => unfold for_range; simpl
      | _ => destruct h; simpl; [|reflexivity]
      end
  end.

Section ButterflyFacts.
Context {kiss_fft_scalar : Type}.
Variables s_add s_sub s_mul : kiss_fft_scalar → kiss_fft_scalar → kiss_fft_scalar.

Abbreviation cpx := (kiss_fft_cpx kiss_fft_scalar).
Abbreviation C_MUL := (C_MUL s_add s_sub s_mul).
Abbreviation C_ADDTO := (C_ADDTO s_add).
Abbreviation lane_sum := (lane_sum s_add s_sub s_mul).
Abbreviation lane_dft := (lane_dft s_add s_sub s_mul).
Abbreviation inner_body := (inner_body s_add s_sub s_mul).
Abbreviation output_body := (output_body s_add s_sub s_mul).
Abbreviation lane_body := (lane_body s_add s_sub s_mul).
Abbreviation kf_bfly_generic := (kf_bfly_generic s_add s_sub s_mul).

(** With both summands below [Norig] and [Norig] at most 2^30, the sum
    fits an [int] and one conditional subtraction reduces it. *)
Lemma twidx_step_mod fstride Norig k t :
  0 < Norig ≤ 1073741824 → 0 ≤ t < Norig → 0 ≤ fstride * k < Norig →
  twidx_step fstride Norig k t = (t + fstride * k) mod Norig.
Proof.
  intros HN Ht Hk. unfold twidx_step.
  rewrite (to_int_id (t + fstride * k)) by lia.
  case_bool_decide as Hge.
  - rewrite to_int_id by lia.
    apply Z.mod_unique with 1; lia.
  - symmetry. apply Z.mod_small. lia.
Qed.

Lemma twidx_at_mod fstride Norig k q :
  0 < Norig ≤ 1073741824 → 0 ≤ fstride * k < Norig →
  twidx_at fstride Norig k q = tw_index fstride Norig k (Z.of_nat q).
Proof.
  intros HN Hk. unfold twidx_at, tw_index. induction q as [|q IH].
  - simpl. by rewrite Z.mod_0_l by lia.
  - rewrite Nat.iter_succ, IH.
    rewrite twidx_step_mod; [|done| |done].
    + rewrite Zplus_mod_idemp_l. f_equal. lia.
    + apply Z.mod_pos_bound. lia.
Qed.

Lemma tw_index_range fstride Norig k q :
  0 < Norig → 0 ≤ tw_index fstride Norig k q < Norig.
Proof. intros HN. apply Z.mod_pos_bound. lia. Qed.

Lemma lane_sum_succ (x : Z → option cpx) tw fstride Norig k (n : nat) :
  lane_sum x tw fstride Norig k (Z.of_nat (S n) + 1) =
  a ← lane_sum x tw fstride Norig k (Z.of_nat n + 1);
  xq ← x (Z.of_nat n + 1);
  w ← load tw (tw_index fstride Norig k (Z.of_nat n + 1));
  Some (C_ADDTO a (C_MUL xq w)).
Proof.
  unfold KissFFT.lane_sum.
  replace (Z.of_nat (S n) + 1 - 1) with (Z.of_nat n + 1) by lia.
  replace (Z.of_nat n + 1 - 1) with (Z.of_nat n) by lia.
  rewrite seqZ_app by lia.
  rewrite (seqZ_cons _ 1) by lia. rewrite (seqZ_nil _ (Z.pred 1)) by lia. rewrite foldl_snoc.
  by replace (1 + Z.of_nat n) with (Z.of_nat n + 1) by lia.
Qed.

Lemma lane_sum_ext (x x' : Z → option cpx) tw fstride Norig k p :
  (∀ q, 0 ≤ q < p → x q = x' q) → 1 ≤ p →
  lane_sum x tw fstride Norig k p = lane_sum x' tw fstride Norig k p.
Proof.
  intros Hx Hp. replace p with (Z.of_nat (Z.to_nat (p - 1)) + 1) in * by lia.
  clear Hp. induction (Z.to_nat (p - 1)) as [|n IH].
  - unfold KissFFT.lane_sum. simpl. apply Hx. lia.
  - rewrite !lane_sum_succ. rewrite IH by (intros; apply Hx; lia).
    by rewrite (Hx (Z.of_nat n + 1)) by lia.
Qed.

Section Lane.
Variables (fstride Norig m p : Z) (tw : list cpx).
Hypothesis HN : 0 < Norig ≤ 1073741824.
Hypothesis Htw : Norig ≤ Z.of_nat (length tw).

(** The [q] loop: [Fout[k]] accumulates the partial sum and the running
    index is the reduced multiple of [fstride * k]. *)
Lemma inner_loop_run scratch k (F : list cpx) a0 (n : nat) :
  0 ≤ k < Z.of_nat (length F) → 0 ≤ fstride * k < Norig →
  (∀ q, 1 ≤ q ≤ Z.of_nat n → is_Some (load_scratch scratch q)) →
  load_scratch scratch 0 = Some a0 →
  load F k = Some a0 →
  ∃ an,
    lane_sum (load_scratch scratch) tw fstride Norig k (Z.of_nat n + 1) = Some an ∧
    for_loop n 1 (inner_body fstride Norig tw scratch k) (F, 0) =
      Some (<[Z.to_nat k := an]> F, tw_index fstride Norig k (Z.of_nat n)).
Proof.
  intros Hk Hfk Hs Hs0 HF. induction n as [|n IH].
  - exists a0. split.
    + unfold KissFFT.lane_sum. simpl. done.
    + simpl. rewrite list_insert_id by (by apply load_Some in HF as [_ ?]).
      unfold tw_index. simpl. by rewrite Zmod_0_l.
  - destruct IH as (an & Hsum & Hrun); [intros; apply Hs; lia|].
    destruct (Hs (Z.of_nat n + 1)) as [xq Hxq]; [lia|].
    destruct (load_lt tw (tw_index fstride Norig k (Z.of_nat n + 1))) as [w Hw].
    { pose proof (tw_index_range fstride Norig k (Z.of_nat n + 1)). lia. }
    exists (C_ADDTO an (C_MUL xq w)). split.
    + rewrite lane_sum_succ, Hsum. simpl. rewrite Hxq. simpl. by rewrite Hw.
    + rewrite for_loop_snoc, Hrun. simpl.
      replace (1 + Z.of_nat n) with (Z.of_nat n + 1) by lia.
      assert (twidx_step fstride Norig k (tw_index fstride Norig k (Z.of_nat n))
              = tw_index fstride Norig k (Z.of_nat n + 1)) as ->.
      { rewrite twidx_step_mod; [|done|by apply tw_index_range; lia|done].
        unfold tw_index. rewrite Zplus_mod_idemp_l. f_equal. lia. }
      rewrite Hxq. simpl. rewrite Hw. simpl.
      rewrite load_insert_eq by done. simpl.
      rewrite store_lt by (rewrite length_insert; lia). simpl.
      rewrite list_insert_insert_eq.
      by replace (Z.of_nat (S n)) with (Z.of_nat n + 1) by lia.
Qed.

Hypothesis Hm : 1 ≤ m.
Hypothesis Hp : 1 ≤ p.
Hypothesis Hdec : fstride * m * p = Norig.

(** The first [q1] loop copies the lane into the scratch buffer. *)
Lemma gather_loop_run (F : list cpx) scratch u (n : nat) :
  Z.of_nat (length scratch) = p → m * p ≤ Z.of_nat (length F) →
  0 ≤ u < m → Z.of_nat n ≤ p →
  ∃ scratch',
    for_loop n 0 (gather_body m p) (F, scratch, u) =
      Some (F, scratch', u + Z.of_nat n * m) ∧
    length scratch' = length scratch ∧
    ∀ q, 0 ≤ q < Z.of_nat n →
      load_scratch scratch' q = load F (u + q * m) ∧
      is_Some (load F (u + q * m)).
Proof.
  intros Hlen HF Hu Hn. pose proof (lane_size_bound fstride Norig m p ltac:(lia) Hm Hp Hdec) as Hmp.
  induction n as [|n IH].
  - exists scratch. split; [|split; [done|intros; lia]].
    simpl. by rewrite Z.add_0_r.
  - destruct IH as (sc & Hrun & Hlsc & Hsc); [lia|].
    pose proof (lane_index_range m p u (Z.of_nat n) Hu ltac:(lia)) as Hk.
    destruct (load_lt F (u + Z.of_nat n * m)) as [v Hv]; [lia|].
    exists (<[Z.to_nat (Z.of_nat n) := Some v]> sc). split; [|split].
    + rewrite for_loop_snoc, Hrun. simpl. rewrite Hv. simpl.
      rewrite store_lt by lia. simpl.
      pose proof (stride_le_size m p Hm Hp).
      rewrite to_int_id by lia.
      replace (0 + Z.of_nat n) with (Z.of_nat n) by lia.
      by replace (u + Z.of_nat (S n) * m) with (u + Z.of_nat n * m + m) by nia.
    + by rewrite length_insert.
    + intros q Hq. destruct (decide (q = Z.of_nat n)) as [->|Hne].
      * unfold load_scratch. rewrite load_insert_eq by lia. simpl.
        by rewrite Hv.
      * unfold load_scratch. rewrite load_insert_ne by lia.
        apply Hsc. lia.
Qed.

(** The second [q1] loop writes the [p] sums of the lane. *)
Lemma output_loop_run (F0 : list cpx) scratch u (n : nat) :
  m * p ≤ Z.of_nat (length F0) → 0 ≤ u < m → Z.of_nat n ≤ p →
  (∀ q, 0 ≤ q < p → is_Some (load_scratch scratch q)) →
  ∃ Fn,
    for_loop n 0 (output_body fstride Norig tw scratch m p) (F0, u) =
      Some (Fn, u + Z.of_nat n * m) ∧
    length Fn = length F0 ∧
    (∀ j, 0 ≤ j < Z.of_nat n →
       load Fn (u + j * m) =
         lane_sum (load_scratch scratch) tw fstride Norig (u + j * m) p ∧
       is_Some (load Fn (u + j * m))) ∧
    (∀ idx, (∀ j, 0 ≤ j < Z.of_nat n → idx ≠ u + j * m) →
       load Fn idx = load F0 idx).
Proof.
  intros HF Hu Hn Hs. pose proof (lane_size_bound fstride Norig m p ltac:(lia) Hm Hp Hdec) as Hmp.
  induction n as [|n IH].
  - exists F0. split; [|split; [done|split; [intros; lia|done]]].
    simpl. by rewrite Z.add_0_r.
  - destruct IH as (Fn & Hrun & Hlen & Hdone & Hrest); [lia|].
    pose proof (lane_index_range m p u (Z.of_nat n) Hu ltac:(lia)) as Hk.
    set (k := u + Z.of_nat n * m) in *.
    destruct (Hs 0) as [a0 Ha0]; [lia|].
    destruct (inner_loop_run scratch k (<[Z.to_nat k := a0]> Fn) a0
                (Z.to_nat (p - 1))) as (an & Hsum & Hin).
    { rewrite length_insert. lia. }
    { apply (stride_index_bound fstride Norig m p); [lia|done|done|done|lia]. }
    { intros q Hq. apply Hs. lia. }
    { done. }
    { apply load_insert_eq. lia. }
    replace (Z.of_nat (Z.to_nat (p - 1)) + 1) with p in Hsum by lia.
    rewrite list_insert_insert_eq in Hin.
    exists (<[Z.to_nat k := an]> Fn). split; [|split; [|split]].
    + rewrite for_loop_snoc, Hrun. simpl. fold k. rewrite Ha0. simpl.
      rewrite store_lt by lia. simpl. unfold for_range.
      rewrite Hin. simpl. pose proof (stride_le_size m p Hm Hp).
      rewrite to_int_id by lia. unfold k.
      by replace (u + Z.of_nat (S n) * m) with (u + Z.of_nat n * m + m) by nia.
    + by rewrite length_insert.
    + intros j Hj. destruct (decide (j = Z.of_nat n)) as [->|Hne].
      * fold k. rewrite load_insert_eq by lia. by rewrite Hsum.
      * rewrite load_insert_ne; [apply Hdone; lia|lia|].
        unfold k. intros Heq.
        apply lane_index_inj in Heq as [_ ?]; [lia|lia|lia].
    + intros idx Hidx. rewrite load_insert_ne; [|lia|].
      * apply Hrest. intros j Hj. apply Hidx. lia.
      * intros Heq. apply (Hidx (Z.of_nat n)); [lia|]. by rewrite <- Heq.
Qed.

(** One round of the [u] loop: lane [u] receives its [p] sums, computed
    from the values the lane held before, and nothing else changes. *)
Lemma lane_body_run (F : list cpx) scratch u :
  Z.of_nat (length scratch) = p → m * p ≤ Z.of_nat (length F) →
  0 ≤ u < m →
  ∃ F' scratch',
    lane_body fstride Norig tw m p u (F, scratch) = Some (F', scratch') ∧
    length scratch' = length scratch ∧
    length F' = length F ∧
    (∀ j, 0 ≤ j < p →
       load F' (u + j * m) = lane_dft F tw fstride Norig m p u j ∧
       is_Some (load F' (u + j * m))) ∧
    (∀ idx, (∀ j, 0 ≤ j < p → idx ≠ u + j * m) → load F' idx = load F idx).
Proof.
  intros Hlen HF Hu.
  destruct (gather_loop_run F scratch u (Z.to_nat p))
    as (sc & Hg & Hlsc & Hsc); [done|done|done|lia|].
  destruct (output_loop_run F sc u (Z.to_nat p))
    as (F' & Ho & HlF & Hdone & Hrest); [done|done|lia| |].
  { intros q Hq. destruct (Hsc q) as [-> ?]; [lia|done]. }
  exists F', sc. split; [|split; [done|split; [done|split]]].
  - unfold KissFFT.lane_body, for_range. rewrite !Z.sub_0_r.
    rewrite Hg. simpl. by rewrite Ho.
  - intros j Hj. destruct (Hdone j) as [Hval Hsome]; [lia|].
    split; [|done]. rewrite Hval. unfold KissFFT.lane_dft.
    apply lane_sum_ext; [|done].
    intros q Hq. apply Hsc. lia.
  - intros idx Hidx. apply Hrest. intros j Hj. apply Hidx. lia.
Qed.

(** The [u] loop after [n] rounds. *)
Lemma lanes_run (F0 : list cpx) (n : nat) :
  m * p ≤ Z.of_nat (length F0) → Z.of_nat n ≤ m →
  ∃ Fn sc,
    for_loop n 0 (lane_body fstride Norig tw m p)
      (F0, replicate (Z.to_nat p) None) = Some (Fn, sc) ∧
    Z.of_nat (length sc) = p ∧
    length Fn = length F0 ∧
    (∀ u j, 0 ≤ u < Z.of_nat n → 0 ≤ j < p →
       load Fn (u + j * m) = lane_dft F0 tw fstride Norig m p u j ∧
       is_Some (load Fn (u + j * m))) ∧
    (∀ idx, (∀ u j, 0 ≤ u < Z.of_nat n → 0 ≤ j < p → idx ≠ u + j * m) →
       load Fn idx = load F0 idx).
Proof.
  intros HF Hn. induction n as [|n IH].
  - exists F0, (replicate (Z.to_nat p) None).
    split; [done|split; [|split; [done|split; [intros; lia|done]]]].
    rewrite length_replicate. lia.
  - destruct IH as (Fn & sc & Hrun & Hlsc & HlF & Hdone & Hrest); [lia|].
    destruct (lane_body_run Fn sc (Z.of_nat n))
      as (F' & sc' & Hl & Hlsc' & HlF' & Hnew & Hold); [done|lia|lia|].
    exists F', sc'. split; [|split; [lia|split; [lia|split]]].
    + rewrite for_loop_snoc, Hrun. simpl. by rewrite Z.add_0_l.
    + intros u j Hu Hj. destruct (decide (u = Z.of_nat n)) as [->|Hne].
      * destruct (Hnew j Hj) as [-> Hsome]. split; [|done].
        unfold KissFFT.lane_dft. apply lane_sum_ext; [|done].
        intros q Hq. apply Hrest. intros u' j' Hu' Hj' Heq.
        apply lane_index_inj in Heq as [? _]; lia.
      * rewrite Hold; [apply Hdone; [lia|done]|].
        intros j' Hj' Heq. apply lane_index_inj in Heq as [? _]; lia.
    + intros idx Hidx. rewrite Hold.
      * apply Hrest. intros u j Hu Hj. apply Hidx; [lia|done].
      * intros j Hj. apply Hidx; [lia|done].
Qed.
End Lane.

(** C1 (as amended).  When the layer decomposes the transform size,
    [fstride * m * p = Norig] with [1 ≤ Norig ≤ 2^30], the twiddle table has
    [Norig] entries and [Fout] has [m * p] elements, the butterfly returns,
    and for every lane [u] and output position [j] the value at
    [u + j * m] is the sum over [q] of the value gathered from
    [u + q * m] times the twiddle factor at [(q * fstride * (u + j * m))
    mod Norig], the term [q = 0] being the gathered value itself; the
    elements from [m * p] on are untouched. *)
Theorem kf_bfly_generic_dft (Fout : list cpx) fstride st m p :
  1 ≤ m → 1 ≤ p →
  fstride * m * p = nfft st →
  0 < nfft st ≤ 1073741824 →
  nfft st ≤ Z.of_nat (length (twiddles st)) →
  m * p ≤ Z.of_nat (length Fout) →
  ∃ Fout',
    kf_bfly_generic Fout fstride st m p = Some Fout' ∧
    length Fout' = length Fout ∧
    (∀ u j, 0 ≤ u < m → 0 ≤ j < p →
       ∃ v, load Fout' (u + j * m) = Some v ∧
            lane_dft Fout (twiddles st) fstride (nfft st) m p u j = Some v) ∧
    (∀ idx, m * p ≤ idx → load Fout' idx = load Fout idx).
Proof.
  intros Hm Hp Hdec HN Htw HF.
  destruct (lanes_run fstride (nfft st) m p (twiddles st) HN Htw Hm Hp Hdec
              Fout (Z.to_nat m))
    as (F' & sc & Hrun & _ & Hlen & Hdone & Hrest); [done|lia|].
  exists F'. split; [|split; [done|split]].
  - unfold KissFFT.kf_bfly_generic, for_range. rewrite Z.sub_0_r.
    by rewrite Hrun.
  - intros u j Hu Hj. destruct (Hdone u j) as [Hval [v Hv]]; [lia|done|].
    exists v. split; [done|]. by rewrite <- Hval.
  - intros idx Hidx. apply Hrest. intros u j Hu Hj.
    pose proof (lane_index_range m p u j ltac:(lia) Hj). lia.
Qed.

(** The running index of the [q] loop is [twidx_at]: it is what round [n]
    leaves in [twidx], whatever the arrays hold. *)
Lemma inner_loop_twidx fstride Norig tw scratch k (n : nat) (F F' : list cpx) t :
  for_loop n 1 (inner_body fstride Norig tw scratch k) (F, 0) = Some (F', t) →
  t = twidx_at fstride Norig k n.
Proof.
  revert F' t. induction n as [|n IH]; intros F' t Hrun.
  - by injection Hrun as _ <-.
  - rewrite for_loop_snoc in Hrun.
    destruct (for_loop n 1 _ (F, 0)) as [[F1 t1]|] eqn:Hn; [|done].
    rewrite (IH F1 t1 eq_refl) in Hrun. simpl in Hrun.
    destruct (load_scratch scratch _); [|done]. simpl in Hrun.
    destruct (load tw _); [|done]. simpl in Hrun.
    destruct (load F1 k); [|done]. simpl in Hrun.
    destruct (store F1 k _); [|done]. simpl in Hrun.
    by injection Hrun as _ <-.
Qed.

(** C10 (as amended).  When [fstride * m * p = Norig] with
    [1 ≤ Norig ≤ 2^30] and the twiddle table has [Norig] entries, the
    running twiddle index lies in [[0, Norig)] at every use, so it is the
    index of a table entry, and on an [Fout] of [m * p] elements the
    butterfly runs to its end: no access to [Fout], to the twiddle table
    or to the [p] cells of the scratch buffer is out of bounds.  The running
    index is [twidx_at]: it is what [n] rounds of the [q] loop leave in
    [twidx]. *)
Theorem kf_bfly_generic_in_bounds fstride st m p :
  1 ≤ m → 1 ≤ p →
  fstride * m * p = nfft st →
  0 < nfft st ≤ 1073741824 →
  nfft st ≤ Z.of_nat (length (twiddles st)) →
  (∀ u j (q : nat), 0 ≤ u < m → 0 ≤ j < p → 1 ≤ Z.of_nat q < p →
     0 ≤ twidx_at fstride (nfft st) (u + j * m) q < nfft st ∧
     is_Some (load (twiddles st) (twidx_at fstride (nfft st) (u + j * m) q))) ∧
  (∀ Fout : list cpx, m * p ≤ Z.of_nat (length Fout) →
     is_Some (kf_bfly_generic Fout fstride st m p)) ∧
  (∀ scratch k (n : nat) (F F' : list cpx) t,
     for_loop n 1 (inner_body fstride (nfft st) (twiddles st) scratch k) (F, 0)
       = Some (F', t) →
     t = twidx_at fstride (nfft st) k n).
Proof.
  intros Hm Hp Hdec HN Htw. split; [|split].
  - intros u j q Hu Hj Hq.
    pose proof (lane_index_range m p u j Hu Hj) as Hk.
    pose proof (stride_index_bound fstride (nfft st) m p _ ltac:(lia) Hm Hp Hdec Hk).
    rewrite twidx_at_mod by done.
    pose proof (tw_index_range fstride (nfft st) (u + j * m) (Z.of_nat q)
                  ltac:(lia)).
    split; [done|]. apply load_lt. lia.
  - intros Fout HF.
    destruct (lanes_run fstride (nfft st) m p (twiddles st) HN Htw Hm Hp Hdec
                Fout (Z.to_nat m))
      as (F' & sc & Hrun & _); [done|lia|].
    exists F'. unfold KissFFT.kf_bfly_generic, for_range.
    rewrite Z.sub_0_r. by rewrite Hrun.
  - intros scratch k n F F' t. apply inner_loop_twidx.
Qed.

(** A failure in the first round of the [u] loop is a failure of the call. *)
Lemma first_lane_fault (Fout : list cpx) fstride st m p :
  1 ≤ m →
  lane_body fstride (nfft st) (twiddles st) m p 0
    (Fout, replicate (Z.to_nat p) None) = None →
  kf_bfly_generic Fout fstride st m p = None.
Proof.
  intros Hm Hlane. unfold KissFFT.kf_bfly_generic, for_range.
  destruct (Z.to_nat (m - 0)) as [|n] eqn:Hn; [lia|].
  change (for_loop (S n) 0 ?b ?s) with (b 0 s ≫= for_loop n (0 + 1) b).
  by rewrite Hlane.
Qed.

(** The radix-7 layer of a transform of 2147483646 points: at output
    position 2 of lane 0, [fstride * k] is 18 * 34087042 = 613566756; the
    running index is 613566756, 1227133512 and 1840700268 in the first
    three rounds, all below [Norig]; the fourth round adds 613566756 once
    more, the sum 2454267024 leaves the [int] range and the converted index
    is negative, whatever the arrays hold. *)
Lemma lane_radix7_overflow (Fout tw : list cpx) scratch :
  lane_body 18 2147483646 tw 17043521 7 0 (Fout, scratch) = None.
Proof.
  unfold KissFFT.lane_body, for_range.
  change (Z.to_nat (7 - 0)) with 7%nat.
  destruct (for_loop 7 0 (gather_body 17043521 7) (Fout, scratch, 0))
    as [[[F1 sc] k1]|]; [|reflexivity].
  simpl. repeat run_head.
Qed.

End ButterflyFacts.

(** A radix-4 layer over the exact fourth roots of unity is the four-point
    transform: the transform of [1, 2, 3, 4] is [10, -2+2i, -2, -2-2i]. *)
Example kf_bfly_generic_ramp :
  Exact.kf_bfly_generic Exact.ramp 1 Exact.st4 1 4 =
  Some [Cpx 10 0; Cpx (-2) 2; Cpx (-2) 0; Cpx (-2) (-2)].
Proof. reflexivity. Qed.

(** Two lanes of radix 2: lane 0 combines the elements 0 and 2, lane 1 the
    elements 1 and 3. *)
Example kf_bfly_generic_two_lanes :
  Exact.kf_bfly_generic Exact.ramp 1 Exact.st4 2 2 =
  Some [Cpx 4 0; Cpx 2 (-4); Cpx (-2) 0; Cpx 2 4].
Proof. reflexivity. Qed.

Lemma kf_bfly_generic_dft_witness :
  ∃ Fout',
    Exact.kf_bfly_generic Exact.ramp 1 Exact.st4 2 2 = Some Fout' ∧
    length Fout' = length Exact.ramp ∧
    (∀ u j, 0 ≤ u < 2 → 0 ≤ j < 2 →
       ∃ v, load Fout' (u + j * 2) = Some v ∧
            Exact.lane_dft Exact.ramp (twiddles Exact.st4) 1 (nfft Exact.st4)
              2 2 u j = Some v) ∧
    (∀ idx, 2 * 2 ≤ idx → load Fout' idx = load Exact.ramp idx).
Proof.
  apply (kf_bfly_generic_dft Z.add Z.sub Z.mul Exact.ramp 1 Exact.st4 2 2);
    simpl; lia.
Defined.

Lemma kf_bfly_generic_in_bounds_witness :
  (∀ u j (q : nat), 0 ≤ u < 2 → 0 ≤ j < 2 → 1 ≤ Z.of_nat q < 2 →
     0 ≤ twidx_at 1 (nfft Exact.st4) (u + j * 2) q < nfft Exact.st4 ∧
     is_Some (load (twiddles Exact.st4)
                (twidx_at 1 (nfft Exact.st4) (u + j * 2) q))) ∧
  (∀ Fout : list (kiss_fft_cpx Z), 2 * 2 ≤ Z.of_nat (length Fout) →
     is_Some (Exact.kf_bfly_generic Fout 1 Exact.st4 2 2)).
Proof.
  destruct (kf_bfly_generic_in_bounds Z.add Z.sub Z.mul 1 Exact.st4 2 2)
    as (Hidx & Hrun & _); [simpl; lia..|].
  by split.
Defined.

Lemma big_array_length : Z.of_nat (length Exact.big_array) = 2147483646.
Proof.
  unfold Exact.big_array. rewrite length_replicate.
  unfold Exact.big_nfft. lia.
Qed.

(** C1 as stated, without a bound on the transform size, fails: with
    [fstride * m * p = Norig = 2147483646], a twiddle table of [Norig]
    entries and an [Fout] of [m * p] elements, the call reads the twiddle
    table at a negative index and has no result. *)
Lemma kf_bfly_generic_int_overflow :
  1 ≤ Exact.big_m ∧ 1 ≤ Exact.big_p ∧
  Exact.big_fstride * Exact.big_m * Exact.big_p = nfft Exact.big_st ∧
  0 < nfft Exact.big_st ∧
  nfft Exact.big_st ≤ Z.of_nat (length (twiddles Exact.big_st)) ∧
  Exact.big_m * Exact.big_p ≤ Z.of_nat (length Exact.big_array) ∧
  Exact.kf_bfly_generic Exact.big_array Exact.big_fstride Exact.big_st
    Exact.big_m Exact.big_p = None.
Proof.
  split; [by unfold Exact.big_m|]. split; [by unfold Exact.big_p|].
  split; [reflexivity|]. split; [reflexivity|].
  split; [|split].
  - change (twiddles Exact.big_st) with Exact.big_array.
    rewrite big_array_length. by change (nfft Exact.big_st) with 2147483646.
  - rewrite big_array_length. by unfold Exact.big_m, Exact.big_p.
  - apply first_lane_fault; [by unfold Exact.big_m|].
    apply lane_radix7_overflow.
Qed.

(** C10 as stated, without a bound on the transform size, fails: for the
    same layer the running index at lane 0, output position 2, is below
    [Norig] after three rounds and negative in the fourth. *)
Lemma twidx_int_overflow :
  1 ≤ Exact.big_m ∧ 1 ≤ Exact.big_p ∧
  Exact.big_fstride * Exact.big_m * Exact.big_p = nfft Exact.big_st ∧
  nfft Exact.big_st ≤ Z.of_nat (length (twiddles Exact.big_st)) ∧
  0 ≤ 0 < Exact.big_m ∧ 0 ≤ 2 < Exact.big_p ∧ 1 ≤ Z.of_nat 4 < Exact.big_p ∧
  twidx_at Exact.big_fstride (nfft Exact.big_st) (0 + 2 * Exact.big_m) 3 =
    1840700268 ∧
  twidx_at Exact.big_fstride (nfft Exact.big_st) (0 + 2 * Exact.big_m) 4 =
    -1840700272 ∧
  load (twiddles Exact.big_st) (-1840700272) = None.
Proof.
  split; [by unfold Exact.big_m|]. split; [by unfold Exact.big_p|].
  split; [reflexivity|]. split.
  { change (twiddles Exact.big_st) with Exact.big_array.
    rewrite big_array_length. by change (nfft Exact.big_st) with 2147483646. }
  split; [by unfold Exact.big_m|]. split; [by unfold Exact.big_p|].
  split; [by unfold Exact.big_p|].
  split; [reflexivity|]. split; [reflexivity|]. by apply load_neg.
Qed.

(** ** The analysis pipeline *)

Import AudioEngine.

Lemma seqZ_snoc (n : nat) :
  seqZ 0 (Z.of_nat (S n)) = seqZ 0 (Z.of_nat n) ++ [Z.of_nat n].
Proof.
  replace (Z.of_nat (S n)) with (Z.of_nat n + 1) by lia.
  rewrite seqZ_app by lia.
  rewrite (seqZ_cons _ 1) by lia. by rewrite (seqZ_nil _ (Z.pred 1)) by lia.
Qed.

(** Writing [f i] at index [i] for [i] from 0 to [n - 1] overwrites the first
    [n] elements and leaves the others. *)
Lemma insert_fill {A} (f : Z → A) (n : nat) (a : list A) :
  (S n ≤ length a)%nat →
  <[Z.to_nat (Z.of_nat n) := f (Z.of_nat n)]>
    ((f <$> seqZ 0 (Z.of_nat n)) ++ drop n a) =
  (f <$> seqZ 0 (Z.of_nat (S n))) ++ drop (S n) a.
Proof.
  intros Hn. rewrite Nat2Z.id.
  destruct (lookup_lt_is_Some_2 a n) as [x Hx]; [lia|].
  rewrite (drop_S _ _ _ Hx).
  rewrite insert_app_r_alt; rewrite length_fmap, length_seqZ, Nat2Z.id; [|lia].
  rewrite Nat.sub_diag. simpl.
  rewrite seqZ_snoc, fmap_app. simpl. by rewrite <- app_assoc.
Qed.

Lemma for_loop_fill {A} (body : Z → list A → option (list A)) (f : Z → A)
    (n : nat) (a0 : list A) :
  (n ≤ length a0)%nat →
  (∀ i a, 0 ≤ i < Z.of_nat n → length a = length a0 →
     body i a = Some (<[Z.to_nat i := f i]> a)) →
  for_loop n 0 body a0 = Some ((f <$> seqZ 0 (Z.of_nat n)) ++ drop n a0).
Proof.
  intros Hn Hbody. induction n as [|n IH].
  - simpl. by rewrite drop_0.
  - rewrite for_loop_snoc, IH; [|lia|intros; apply Hbody; [lia|done]].
    simpl. rewrite Z.add_0_l, Hbody; [|lia|].
    + by rewrite insert_fill.
    + rewrite length_app, length_fmap, length_seqZ, length_drop. lia.
Qed.

Lemma for_loop_fill_log {A E}
    (body : Z → list A * list E → option (list A * list E))
    (f : Z → A) (e : Z → E) (n : nat) (a0 : list A) (l0 : list E) :
  (n ≤ length a0)%nat →
  (∀ i a l, 0 ≤ i < Z.of_nat n → length a = length a0 →
     body i (a, l) = Some (<[Z.to_nat i := f i]> a, l ++ [e i])) →
  for_loop n 0 body (a0, l0) =
  Some ((f <$> seqZ 0 (Z.of_nat n)) ++ drop n a0,
        l0 ++ (e <$> seqZ 0 (Z.of_nat n))).
Proof.
  intros Hn Hbody. induction n as [|n IH].
  - simpl. by rewrite drop_0, app_nil_r.
  - rewrite for_loop_snoc, IH; [|lia|intros; apply Hbody; [lia|done]].
    simpl. rewrite Z.add_0_l, Hbody; [|lia|].
    + rewrite insert_fill by done.
      by rewrite (seqZ_snoc n), !fmap_app, !app_assoc.
    + rewrite length_app, length_fmap, length_seqZ, length_drop. lia.
Qed.

(** The first [n] elements of an array, read one by one. *)
Lemma fmap_load_take {A B} (g : A → B) (d : A) (l : list A) (n : nat) :
  (n ≤ length l)%nat →
  (λ i, g (default d (load l i))) <$> seqZ 0 (Z.of_nat n) = g <$> take n l.
Proof.
  intros Hn. induction n as [|n IH]; [done|].
  destruct (lookup_lt_is_Some_2 l n) as [x Hx]; [lia|].
  rewrite seqZ_snoc, fmap_app, IH by lia. simpl.
  rewrite (take_S_r _ _ _ Hx), fmap_app. simpl.
  unfold load. rewrite bool_decide_true by lia.
  by rewrite Nat2Z.id, Hx.
Qed.

Lemma for_loop_preserves {S} (P : S → Prop) n lo (body : Z → S → option S) s s' :
  (∀ k s1 s2, P s1 → body k s1 = Some s2 → P s2) →
  P s → for_loop n lo body s = Some s' → P s'.
Proof.
  intros Hbody. revert lo s. induction n as [|n IH]; intros lo s Hs Hrun.
  - by injection Hrun as <-.
  - simpl in Hrun. destruct (body lo s) as [s1|] eqn:Hb; [|done].
    simpl in Hrun. eapply IH; [|done]. by eapply Hbody.
Qed.

Section PipelineFacts.
Context {float double : Type} `{!FloatOps float double} `{!RealFFT float}.

Implicit Types (g : globals float) (input output : jfloatArray float).

(** The source's expression is the coefficient of the specification. *)
Lemma hann_is_coefficient n k : hann n k = hann_coefficient n k.
Proof. reflexivity. Qed.

Lemma length_hann_table n : length (hann_table n) = Z.to_nat n.
Proof. unfold hann_table. by rewrite length_fmap, length_seqZ. Qed.

Lemma load_hann_table n k :
  0 ≤ k < n → load (hann_table n) k = Some (hann_coefficient n k).
Proof.
  intros Hk. unfold load, hann_table. rewrite bool_decide_true by lia.
  rewrite list_lookup_fmap, lookup_seqZ_lt by lia. simpl.
  do 2 f_equal. lia.
Qed.

(** The loop of lines 36-38 fills the resized table. *)
Lemma hann_loop_run n (w0 : list float) :
  0 ≤ n → length w0 = Z.to_nat n →
  for_range 0 n (λ k w, store w k (hann n k)) w0 = Some (hann_table n).
Proof.
  intros Hn Hlen. unfold for_range. rewrite Z.sub_0_r.
  rewrite (for_loop_fill _ (hann_coefficient n)); [|lia|].
  - rewrite Z2Nat.id by done. rewrite drop_ge by lia.
    by rewrite app_nil_r.
  - intros k a Hk Ha. rewrite store_lt by lia. done.
Qed.

Lemma ensure_cached g n c :
  cfg g = Some c → current_nfft g = n → ensure g n = Some (g, [], true).
Proof.
  intros Hc Hn. unfold ensure. rewrite Hc.
  by rewrite bool_decide_false by (intros ?; done).
Qed.

Lemma ensure_failed g n :
  cfg g = None ∨ current_nfft g ≠ n →
  kiss_fftr_alloc n 0 = None →
  ensure g n =
  Some (Globals None (current_nfft g) (window g) (fft_out g) (fft_in g),
        free_cfg g, false).
Proof.
  intros Hre Ha. unfold ensure. rewrite Ha.
  destruct (cfg g) as [c0|] eqn:Hc; [|done].
  destruct Hre as [|Hne]; [done|]. by rewrite bool_decide_true.
Qed.

Lemma ensure_rebuilt g n c :
  cfg g = None ∨ current_nfft g ≠ n → 0 ≤ n →
  kiss_fftr_alloc n 0 = Some c →
  ensure g n =
  Some (Globals (Some c) n (hann_table n)
          (resize (Z.to_nat (n ÷ 2 + 1)) (Cpx f_zero f_zero) (fft_out g))
          (resize (Z.to_nat n) f_zero (fft_in g)),
        free_cfg g, true).
Proof.
  intros Hre Hn Ha. unfold ensure. rewrite Ha.
  rewrite hann_loop_run; [|done|by rewrite length_resize].
  destruct (cfg g) as [c0|] eqn:Hc; [|done].
  destruct Hre as [|Hne]; [done|]. by rewrite bool_decide_true.
Qed.

Lemma windowed_alt n (inData : list float) :
  0 ≤ n ≤ Z.of_nat (length inData) →
  (λ k, f_mul (default f_zero (load inData k)) (hann_coefficient n k))
    <$> seqZ 0 n = windowed n inData.
Proof.
  intros Hn. unfold windowed, hann_table.
  rewrite <- (list_fmap_id (take (Z.to_nat n) inData)).
  rewrite <- (fmap_load_take id f_zero) by lia.
  rewrite Z2Nat.id by lia.
  rewrite zip_with_fmap_l, zip_with_fmap_r, zip_with_diag. done.
Qed.

Lemma length_windowed n (inData : list float) :
  0 ≤ n ≤ Z.of_nat (length inData) → length (windowed n inData) = Z.to_nat n.
Proof.
  intros Hn. rewrite <- windowed_alt by done.
  by rewrite length_fmap, length_seqZ.
Qed.

(** Step 3 reads the first [nfft] samples, in order, and nothing else. *)
Lemma window_loop_run n (inData fi : list float) (log : list (event float)) :
  0 ≤ n ≤ Z.of_nat (length inData) → length fi = Z.to_nat n →
  for_range 0 n (window_body inData (hann_table n)) (fi, log) =
  Some (windowed n inData, log ++ (ReadInput <$> seqZ 0 n)).
Proof.
  intros Hn Hlen. unfold for_range. rewrite Z.sub_0_r.
  rewrite (for_loop_fill_log _
             (λ k, f_mul (default f_zero (load inData k)) (hann_coefficient n k))
             ReadInput); [|lia|].
  - rewrite Z2Nat.id by lia. rewrite drop_ge by lia.
    by rewrite app_nil_r, windowed_alt.
  - intros k a l Hk Ha. unfold window_body.
    destruct (load_lt inData k) as [x Hx]; [lia|].
    rewrite Hx, load_hann_table by lia. simpl.
    by rewrite store_lt by lia.
Qed.

(** Step 5 writes the first [b] elements of the output, in order. *)
Lemma magnitude_loop_run n (fo : list (kiss_fft_cpx float))
    (outData : list float) (log : list (event float)) b :
  0 ≤ b ≤ Z.of_nat (length outData) → b ≤ Z.of_nat (length fo) →
  for_range 0 b (magnitude_body n fo) (outData, log) =
  Some ((magnitude n <$> take (Z.to_nat b) fo) ++ drop (Z.to_nat b) outData,
        log ++ (WriteOutput <$> seqZ 0 b)).
Proof.
  intros Hb Hfo. unfold for_range. rewrite Z.sub_0_r.
  rewrite (for_loop_fill_log _
             (λ k, magnitude n (default (Cpx f_zero f_zero) (load fo k)))
             WriteOutput); [|lia|].
  - rewrite fmap_load_take by lia. by rewrite Z2Nat.id by lia.
  - intros k a l Hk Ha. unfold magnitude_body.
    destruct (load_lt fo k) as [x Hx]; [lia|].
    rewrite Hx. simpl. by rewrite store_lt by lia.
Qed.

Lemma store_bins_exact (bins buf : list (kiss_fft_cpx float)) :
  length bins = length buf → store_bins bins buf = Some bins.
Proof.
  intros Hlen. unfold store_bins. rewrite bool_decide_true by lia.
  rewrite drop_ge by lia. by rewrite app_nil_r.
Qed.

(** The magnitudes a call at size [n] on [input] produces: one for each of
    the first [bins] bins of the transform of the windowed input. *)
Lemma computeFft_after_ensure g input output n g1 log1 c :
  0 < n →
  ensure g n = Some (g1, log1, true) →
  cfg g1 = Some c → kiss_fftr_alloc n 0 = Some c →
  window g1 = hann_table n →
  length (fft_in g1) = Z.to_nat n →
  length (fft_out g1) = Z.to_nat (n ÷ 2 + 1) →
  accessible input = true → accessible output = true →
  n ≤ Z.of_nat (length (elements input)) →
  computeFft g input output n =
  Some (Globals (Some c) (current_nfft g1) (hann_table n)
          (kiss_fftr c (windowed n (elements input)))
          (windowed n (elements input)),
        (magnitude n <$> take (Z.to_nat (bins_of output n))
                           (kiss_fftr c (windowed n (elements input))))
          ++ drop (Z.to_nat (bins_of output n)) (elements output),
        log1 ++ (ReadInput <$> seqZ 0 n)
             ++ (WriteOutput <$> seqZ 0 (bins_of output n))).
Proof.
  intros Hn He Hc Ha Hw Hfi Hfo Hin Hout Hlen.
  unfold computeFft. rewrite bool_decide_false by lia.
  rewrite He. simpl. rewrite Hin, Hout, Hc, Hw. simpl.
  rewrite window_loop_run by (done || lia). simpl.
  rewrite (take_ge (windowed n (elements input)))
    by (rewrite length_windowed; lia).
  rewrite store_bins_exact by (by rewrite (kiss_fftr_bins n 0)).
  simpl. fold (bins_of output n).
  assert (0 ≤ n ÷ 2) by (apply Z.quot_pos; lia).
  rewrite magnitude_loop_run.
  - simpl. by rewrite <- app_assoc.
  - unfold bins_of. lia.
  - rewrite (kiss_fftr_bins n 0) by done. unfold bins_of. lia.
Qed.

Lemma computeFft_run g input output n c :
  consistent g → 0 < n → kiss_fftr_alloc n 0 = Some c →
  accessible input = true → accessible output = true →
  n ≤ Z.of_nat (length (elements input)) →
  computeFft g input output n =
  Some (Globals (Some c) n (hann_table n)
          (kiss_fftr c (windowed n (elements input)))
          (windowed n (elements input)),
        (magnitude n <$> take (Z.to_nat (bins_of output n))
                           (kiss_fftr c (windowed n (elements input))))
          ++ drop (Z.to_nat (bins_of output n)) (elements output),
        (if bool_decide (current_nfft g ≠ n) then free_cfg g else [])
          ++ (ReadInput <$> seqZ 0 n)
          ++ (WriteOutput <$> seqZ 0 (bins_of output n))).
Proof.
  intros [Hsz Hcfg] Hn Ha Hin Hout Hlen.
  destruct (cfg g) as [c0|] eqn:Hc0;
    [destruct (decide (current_nfft g = n)) as [Heq|Hne]|].
  - destruct (Hcfg c0 eq_refl) as [Hnz Ha0].
    destruct (Hsz Hnz) as (_ & (Hlw & Hlfi & Hlfo) & Hw).
    rewrite Heq in *. assert (c0 = c) as -> by congruence.
    rewrite (computeFft_after_ensure g input output n g [] c);
      try done; try lia.
    + rewrite Heq. by rewrite bool_decide_false by (intros ?; done).
    + by apply (ensure_cached g n c).
  - pose proof (ensure_rebuilt g n c ltac:(by right) ltac:(lia) Ha) as He.
    rewrite (computeFft_after_ensure g input output n _ _ c Hn He);
      simpl; rewrite ?length_resize; try done.
    by rewrite bool_decide_true.
  - pose proof (ensure_rebuilt g n c ltac:(by left) ltac:(lia) Ha) as He.
    rewrite (computeFft_after_ensure g input output n _ _ c Hn He);
      simpl; rewrite ?length_resize; try done.
    unfold free_cfg. rewrite Hc0. by case_bool_decide.
Qed.

(** *** What a call keeps *)

Lemma length_store_bins (bins buf buf' : list (kiss_fft_cpx float)) :
  store_bins bins buf = Some buf' → length buf' = length buf.
Proof.
  unfold store_bins. case_bool_decide; [|done]. intros [= <-].
  rewrite length_app, length_drop. lia.
Qed.

Lemma length_window_loop n (inData w fi fi' : list float)
    (log log' : list (event float)) :
  for_range 0 n (window_body inData w) (fi, log) = Some (fi', log') →
  length fi' = length fi.
Proof.
  unfold for_range. intros Hrun.
  apply (for_loop_preserves (λ s, length s.1 = length fi)) in Hrun; [done| |done].
  intros k [a l] [a' l'] Ha Hb. unfold window_body in Hb. simpl in *.
  destruct (load inData k); [|done]. destruct (load w k); [|done].
  simpl in Hb. destruct (store a k _) as [a1|] eqn:Hst; [|done].
  injection Hb as <- _. apply store_Some in Hst as [_ ->].
  by rewrite length_insert.
Qed.

Lemma length_magnitude_loop n b (fo : list (kiss_fft_cpx float))
    (o o' : list float) (log log' : list (event float)) :
  for_range 0 b (magnitude_body n fo) (o, log) = Some (o', log') →
  length o' = length o.
Proof.
  unfold for_range. intros Hrun.
  apply (for_loop_preserves (λ s, length s.1 = length o)) in Hrun; [done| |done].
  intros k [a l] [a' l'] Ha Hb. unfold magnitude_body in Hb. simpl in *.
  destruct (load fo k); [|done].
  simpl in Hb. destruct (store a k _) as [a1|] eqn:Hst; [|done].
  injection Hb as <- _. apply store_Some in Hst as [_ ->].
  by rewrite length_insert.
Qed.

(** Steps 2 to 6 keep the configuration, the cached size, the window table
    and the lengths of the two scratch buffers. *)
Lemma computeFft_keeps g input output n g1 log1 continue g' out log :
  0 < n →
  ensure g n = Some (g1, log1, continue) →
  computeFft g input output n = Some (g', out, log) →
  cfg g' = cfg g1 ∧ current_nfft g' = current_nfft g1 ∧
  window g' = window g1 ∧
  length (fft_in g') = length (fft_in g1) ∧
  length (fft_out g') = length (fft_out g1) ∧
  length out = length (elements output).
Proof.
  intros Hn He. unfold computeFft. rewrite bool_decide_false by lia.
  rewrite He. simpl.
  destruct continue; simpl; [|by intros [= <- <- _]].
  destruct (accessible input && accessible output); simpl;
    [|by intros [= <- <- _]].
  destruct (cfg g1) as [c|] eqn:Hc; [|by intros [= <- <- _]].
  destruct (for_range 0 n _ (fft_in g1, log1)) as [[fi l1]|] eqn:Hw; [|done].
  simpl. destruct (store_bins _ _) as [fo|] eqn:Hs; [|done].
  simpl. destruct (for_range 0 _ _ (elements output, l1)) as [[o l2]|] eqn:Hm;
    [|done].
  simpl. intros [= <- <- _]. simpl.
  apply length_window_loop in Hw. apply length_store_bins in Hs.
  apply length_magnitude_loop in Hm. done.
Qed.

Lemma ensure_is_Some g n : 0 ≤ n → is_Some (ensure g n).
Proof.
  intros Hn.
  destruct (cfg g) as [c0|] eqn:Hc0;
    [destruct (decide (current_nfft g = n)) as [Heq|Hne]|].
  - rewrite (ensure_cached g n c0); done.
  - destruct (kiss_fftr_alloc n 0) as [c|] eqn:Ha.
    + rewrite (ensure_rebuilt g n c); [done|by right|done|done].
    + rewrite ensure_failed; [done|by right|done].
  - destruct (kiss_fftr_alloc n 0) as [c|] eqn:Ha.
    + rewrite (ensure_rebuilt g n c); [done|by left|done|done].
    + rewrite ensure_failed; [done|by left|done].
Qed.

Lemma consistent_rebuilt n c (fo : list (kiss_fft_cpx float)) (fi : list float) :
  0 < n → kiss_fftr_alloc n 0 = Some c →
  consistent
    (Globals (Some c) n (hann_table n)
       (resize (Z.to_nat (n ÷ 2 + 1)) (Cpx f_zero f_zero) fo)
       (resize (Z.to_nat n) f_zero fi)).
Proof.
  intros Hn Ha. split; simpl.
  - intros _. split; [done|]. split; [|done].
    unfold sized_for. simpl.
    rewrite length_hann_table, !length_resize.
    assert (0 ≤ n ÷ 2) by (apply Z.quot_pos; lia). lia.
  - intros c' [= <-]. split; [lia|done].
Qed.

Lemma consistent_failed g :
  consistent g →
  consistent (Globals None (current_nfft g) (window g) (fft_out g) (fft_in g)).
Proof. intros [Hsz _]. split; simpl; [done|done]. Qed.

Lemma consistent_ensure g n g1 log1 continue :
  0 < n → consistent g → ensure g n = Some (g1, log1, continue) →
  consistent g1.
Proof.
  intros Hn Hg He.
  destruct (cfg g) as [c0|] eqn:Hc0;
    [destruct (decide (current_nfft g = n)) as [Heq|Hne]|].
  - rewrite (ensure_cached g n c0) in He by done.
    by injection He as <- _ _.
  - destruct (kiss_fftr_alloc n 0) as [c|] eqn:Ha.
    + rewrite (ensure_rebuilt g n c) in He; [|by right|lia|done].
      injection He as <- _ _. by apply consistent_rebuilt.
    + rewrite ensure_failed in He; [|by right|done].
      injection He as <- _ _. by apply consistent_failed.
  - destruct (kiss_fftr_alloc n 0) as [c|] eqn:Ha.
    + rewrite (ensure_rebuilt g n c) in He; [|by left|lia|done].
      injection He as <- _ _. by apply consistent_rebuilt.
    + rewrite ensure_failed in He; [|by left|done].
      injection He as <- _ _. by apply consistent_failed.
Qed.

Lemma consistent_initial : consistent (initial : globals float).
Proof. split; simpl; [done|done]. Qed.

Lemma consistent_cleanupFft g : consistent (cleanupFft g).1.
Proof. split; simpl; [done|done]. Qed.

Lemma consistent_computeFft g input output n g' out log :
  consistent g → computeFft g input output n = Some (g', out, log) →
  consistent g'.
Proof.
  intros Hg Hrun. destruct (decide (n ≤ 0)) as [Hle|Hn].
  - unfold computeFft in Hrun. rewrite bool_decide_true in Hrun by done.
    by injection Hrun as <- _ _.
  - destruct (ensure_is_Some g n) as [[[g1 log1] continue] He]; [lia|].
    pose proof (consistent_ensure g n g1 log1 continue ltac:(lia) Hg He)
      as [Hsz Hcfg].
    destruct (computeFft_keeps g input output n g1 log1 continue g' out log
                ltac:(lia) He Hrun) as (Hc & Hcur & Hw & Hfi & Hfo & _).
    split.
    + rewrite Hcur. intros Hnz. destruct (Hsz Hnz) as (? & (? & ? & ?) & ?).
      split; [done|]. split; [|congruence].
      unfold sized_for. rewrite Hw, Hfi, Hfo. done.
    + rewrite Hc, Hcur. done.
Qed.

Lemma reachable_consistent g : reachable g → consistent g.
Proof.
  induction 1 as [|g input output n g' out log _ IH Hrun|g _ _].
  - apply consistent_initial.
  - by eapply consistent_computeFft.
  - apply consistent_cleanupFft.
Qed.

(** *** The events of a call *)

Lemma reads_ReadInput (l : list Z) :
  reads ((ReadInput <$> l) : list (event float)) = l.
Proof. induction l as [|k l IH]; [done|]. simpl. by f_equal. Qed.

Lemma reads_WriteOutput (l : list Z) :
  reads ((WriteOutput <$> l) : list (event float)) = [].
Proof. induction l as [|k l IH]; [done|]. simpl. by f_equal. Qed.

Lemma writes_ReadInput (l : list Z) :
  writes ((ReadInput <$> l) : list (event float)) = [].
Proof. induction l as [|k l IH]; [done|]. simpl. by f_equal. Qed.

Lemma writes_WriteOutput (l : list Z) :
  writes ((WriteOutput <$> l) : list (event float)) = l.
Proof. induction l as [|k l IH]; [done|]. simpl. by f_equal. Qed.

Lemma reads_app (l1 l2 : list (event float)) :
  reads (l1 ++ l2) = reads l1 ++ reads l2.
Proof. apply omap_app. Qed.

Lemma writes_app (l1 l2 : list (event float)) :
  writes (l1 ++ l2) = writes l1 ++ writes l2.
Proof. apply omap_app. Qed.

Lemma reads_free_cfg g : reads (free_cfg g) = [].
Proof. unfold free_cfg. by destruct (cfg g). Qed.

Lemma writes_free_cfg g : writes (free_cfg g) = [].
Proof. unfold free_cfg. by destruct (cfg g). Qed.

Lemma reads_run g n b :
  reads ((if bool_decide (current_nfft g ≠ n) then free_cfg g else [])
           ++ (ReadInput <$> seqZ 0 n) ++ (WriteOutput <$> seqZ 0 b)) =
  seqZ 0 n.
Proof.
  rewrite !reads_app.
  rewrite reads_ReadInput, reads_WriteOutput, app_nil_r.
  case_bool_decide; [by rewrite reads_free_cfg|done].
Qed.

Lemma writes_run g n b :
  writes ((if bool_decide (current_nfft g ≠ n) then free_cfg g else [])
            ++ (ReadInput <$> seqZ 0 n) ++ (WriteOutput <$> seqZ 0 b)) =
  seqZ 0 b.
Proof.
  rewrite !writes_app.
  rewrite writes_ReadInput, writes_WriteOutput.
  case_bool_decide; [by rewrite writes_free_cfg|done].
Qed.

Lemma bins_of_range output n :
  0 < n →
  0 ≤ bins_of output n ∧
  bins_of output n ≤ Z.of_nat (length (elements output)) ∧
  bins_of output n ≤ n ÷ 2.
Proof.
  intros Hn. assert (0 ≤ n ÷ 2) by (apply Z.quot_pos; lia).
  unfold bins_of. lia.
Qed.

Lemma length_magnitudes n c output (t : list float) :
  0 < n → kiss_fftr_alloc n 0 = Some c →
  length (magnitude n <$> take (Z.to_nat (bins_of output n)) (kiss_fftr c t)) =
  Z.to_nat (bins_of output n).
Proof.
  intros Hn Ha. pose proof (bins_of_range output n Hn).
  rewrite length_fmap, length_take, (kiss_fftr_bins n 0) by done. lia.
Qed.

(** C2.  A call with [nfft > 0] that reaches the magnitude stage (a
    configuration for [nfft] can be had, both arrays are handed out, the
    input holds [nfft] samples) returns, and writes exactly the indices
    [0, ..., bins - 1] of the output, [bins = min(capacity, nfft / 2)]: none
    at or beyond the capacity, none at the Nyquist index [nfft / 2], and
    the elements from [bins] on keep their values; it reads exactly the
    indices [0, ..., nfft - 1] of the input. *)
Theorem computeFft_output_bounds g input output n c :
  reachable g → 0 < n → kiss_fftr_alloc n 0 = Some c →
  accessible input = true → accessible output = true →
  n ≤ Z.of_nat (length (elements input)) →
  ∃ g' out log,
    computeFft g input output n = Some (g', out, log) ∧
    writes log = seqZ 0 (bins_of output n) ∧
    length (writes log) =
      Z.to_nat (Z.min (Z.of_nat (length (elements output))) (n ÷ 2)) ∧
    (∀ k, k ∈ writes log →
       0 ≤ k < Z.of_nat (length (elements output)) ∧ k < n ÷ 2) ∧
    length out = length (elements output) ∧
    drop (Z.to_nat (bins_of output n)) out =
      drop (Z.to_nat (bins_of output n)) (elements output) ∧
    reads log = seqZ 0 n ∧
    (∀ k, k ∈ reads log → 0 ≤ k < n).
Proof.
  intros Hg Hn Ha Hin Hout Hlen.
  pose proof (bins_of_range output n Hn) as Hb.
  eexists _, _, _. split.
  { apply (computeFft_run g input output n c); try done.
    by apply reachable_consistent. }
  rewrite writes_run, reads_run. split; [done|]. split.
  { by rewrite length_seqZ. }
  split.
  { intros k Hk. apply elem_of_seqZ in Hk. lia. }
  split.
  { rewrite length_app, length_magnitudes, length_drop by done. lia. }
  split.
  { apply drop_app_length'. by rewrite length_magnitudes. }
  split; [done|].
  intros k Hk. apply elem_of_seqZ in Hk. lia.
Qed.

(** C5.  In such a call every written element [k] is
    [sqrtf(re * re + im * im) / (float)(nfft / 2)], where [(re, im)] is
    bin [k] of the transform of the windowed input and [nfft / 2] is the
    truncating integer quotient: [nfft / 2] exactly for an even [nfft],
    [(nfft - 1) / 2] for an odd one. *)
Theorem computeFft_magnitudes g input output n c :
  reachable g → 0 < n → kiss_fftr_alloc n 0 = Some c →
  accessible input = true → accessible output = true →
  n ≤ Z.of_nat (length (elements input)) →
  ∃ g' out log,
    computeFft g input output n = Some (g', out, log) ∧
    (∀ k, 0 ≤ k < bins_of output n →
       ∃ re im,
         load (kiss_fftr c (windowed n (elements input))) k = Some (Cpx re im) ∧
         load out k =
           Some (f_div (sqrtf (f_add (f_mul re re) (f_mul im im)))
                       (float_of_int (n ÷ 2)))) ∧
    (Z.even n = true → 2 * (n ÷ 2) = n) ∧
    (Z.odd n = true → 2 * (n ÷ 2) = n - 1).
Proof.
  intros Hg Hn Ha Hin Hout Hlen.
  pose proof (bins_of_range output n Hn) as Hb.
  eexists _, _, _. split.
  { apply (computeFft_run g input output n c); try done.
    by apply reachable_consistent. }
  split; [|split].
  - intros k Hk.
    destruct (load_lt (kiss_fftr c (windowed n (elements input))) k)
      as [[re im] Hbin].
    { rewrite (kiss_fftr_bins n 0) by done. lia. }
    exists re, im. split; [done|].
    apply load_Some in Hbin as [_ Hbin]. apply load_Some. split; [lia|].
    rewrite lookup_app_l by (rewrite length_magnitudes by done; lia).
    rewrite list_lookup_fmap, lookup_take_lt by lia. by rewrite Hbin.
  - intros He. apply Zeven_bool_iff in He.
    destruct (Zeven_ex n He) as [h ->].
    rewrite (Z.mul_comm 2 h), Z.quot_mul by lia. lia.
  - intros Ho. apply Zodd_bool_iff in Ho.
    destruct (Zodd_ex n Ho) as [h ->].
    rewrite Z.quot_div_nonneg by lia.
    replace (2 * h + 1) with (1 + h * 2) by lia.
    rewrite Z.div_add by lia. change (1 / 2) with 0. lia.
Qed.

(** C3 (as amended).  When a configuration has to be allocated and the
    allocation fails, the call returns with the output untouched and
    nothing written, and no configuration is held; the cached size and the
    buffers are the ones from before the call.  The cached size left behind
    is not relied on: with no configuration held, the next call at any size
    that has a configuration, the cached one included, allocates it, sets
    the cached size and rebuilds the window table. *)
Theorem computeFft_alloc_failure g input output n :
  0 < n → cfg g = None ∨ current_nfft g ≠ n →
  kiss_fftr_alloc n 0 = None →
  ∃ g' log,
    computeFft g input output n = Some (g', elements output, log) ∧
    writes log = [] ∧
    cfg g' = None ∧
    current_nfft g' = current_nfft g ∧
    window g' = window g ∧ fft_in g' = fft_in g ∧ fft_out g' = fft_out g ∧
    ∀ n' c, 0 < n' → kiss_fftr_alloc n' 0 = Some c →
      ∃ fo fi,
        ensure g' n' = Some (Globals (Some c) n' (hann_table n') fo fi, [], true).
Proof.
  intros Hn Hre Ha. eexists _, _. split.
  { unfold computeFft. rewrite bool_decide_false by lia.
    rewrite ensure_failed by done. simpl. done. }
  split; [apply writes_free_cfg|]. do 5 (split; [done|]).
  intros n' c Hn' Ha'. eexists _, _.
  rewrite (ensure_rebuilt _ n' c); [done|by left|lia|done].
Qed.

(** C4 (as amended).  In every state the module can reach, a held
    configuration comes with a non-zero cached size, and whenever the
    cached size is non-zero the window table and the windowed buffer have
    that length and the complex spectrum has half of it plus one. *)
Theorem reachable_sized g :
  reachable g →
  (is_Some (cfg g) → current_nfft g ≠ 0) ∧
  (current_nfft g ≠ 0 → sized_for g (current_nfft g)).
Proof.
  intros Hg. apply reachable_consistent in Hg as [Hsz Hcfg]. split.
  - intros [c Hc]. by destruct (Hcfg c Hc).
  - intros Hnz. by destruct (Hsz Hnz) as (_ & ? & _).
Qed.

(** C6.  The table for size [n] has the coefficient
    [0.5 * (1 - cos(2π·k / (n - 1)))] at every index [k] in [[0, n)] and
    depends on nothing but [n].  A call that allocates a configuration
    (valid size, and no configuration held or another size cached) leaves
    that table as the window, whatever the state was; every other call
    leaves the window as it was. *)
Theorem window_table_rebuilt g input output n g' out log :
  computeFft g input output n = Some (g', out, log) →
  length (hann_table n) = Z.to_nat n ∧
  (∀ k, 0 ≤ k < n →
     load (hann_table n) k =
       Some (f_mul f_half
               (f_sub f_one
                  (cosf (float_of_double
                     (d_div (d_mul two_pi (double_of_int k))
                            (double_of_int (n - 1)))))))) ∧
  (0 < n → cfg g = None ∨ current_nfft g ≠ n →
     is_Some (kiss_fftr_alloc n 0) → window g' = hann_table n) ∧
  (is_Some (cfg g) → current_nfft g = n → window g' = window g) ∧
  (kiss_fftr_alloc n 0 = None → window g' = window g) ∧
  (n ≤ 0 → window g' = window g).
Proof.
  intros Hrun. split; [apply length_hann_table|].
  split; [intros k Hk; by apply load_hann_table|].
  assert (n ≤ 0 → window g' = window g) as Hneg.
  { intros Hle. unfold computeFft in Hrun.
    rewrite bool_decide_true in Hrun by done. by injection Hrun as <- _ _. }
  split; [|split; [|split; [|done]]].
  - intros Hn Hre [c Ha].
    pose proof (ensure_rebuilt g n c Hre ltac:(lia) Ha) as He.
    by destruct (computeFft_keeps g input output n _ _ _ g' out log Hn He Hrun)
      as (_ & _ & -> & _).
  - intros [c Hc] Hcur. destruct (decide (n ≤ 0)) as [|Hn]; [by apply Hneg|].
    pose proof (ensure_cached g n c Hc Hcur) as He.
    by destruct (computeFft_keeps g input output n _ _ _ g' out log
                   ltac:(lia) He Hrun) as (_ & _ & -> & _).
  - intros Ha. destruct (decide (n ≤ 0)) as [|Hn]; [by apply Hneg|].
    destruct (ensure_is_Some g n) as [[[g1 log1] continue] He]; [lia|].
    destruct (computeFft_keeps g input output n _ _ _ g' out log
                ltac:(lia) He Hrun) as (_ & _ & -> & _).
    unfold ensure in He. rewrite Ha in He.
    destruct (match cfg g with Some _ => _ | None => _ end);
      by injection He as <- _ _.
Qed.

(** C7.  A call at a valid size [n] on [input], then any call that
    returns, then the first call again on an output array of the same
    capacity: the third call returns, writes the magnitudes the first one
    wrote and leaves the state the first one left. *)
Theorem reconfigure_same_output g input output output' n c inputB outputB nB :
  reachable g → 0 < n → kiss_fftr_alloc n 0 = Some c →
  accessible input = true → accessible output = true →
  accessible output' = true →
  n ≤ Z.of_nat (length (elements input)) →
  length (elements output') = length (elements output) →
  ∃ g1 out1 log1,
    computeFft g input output n = Some (g1, out1, log1) ∧
    ∀ g2 out2 log2,
      computeFft g1 inputB outputB nB = Some (g2, out2, log2) →
      ∃ g3 out3 log3,
        computeFft g2 input output' n = Some (g3, out3, log3) ∧
        take (Z.to_nat (bins_of output n)) out3 =
          take (Z.to_nat (bins_of output n)) out1 ∧
        (elements output' = elements output → out3 = out1) ∧
        g3 = g1.
Proof.
  intros Hg Hn Ha Hin Hout Hout' Hlen Hcap.
  pose proof (reachable_consistent g Hg) as Hcons.
  pose proof (computeFft_run g input output n c Hcons Hn Ha Hin Hout Hlen)
    as Hrun1.
  eexists _, _, _. split; [exact Hrun1|].
  intros g2 out2 log2 Hrun2.
  assert (consistent g2) as Hcons2.
  { eapply consistent_computeFft; [|exact Hrun2].
    eapply consistent_computeFft; [exact Hcons|exact Hrun1]. }
  pose proof (computeFft_run g2 input output' n c Hcons2 Hn Ha Hin Hout' Hlen)
    as Hrun3.
  assert (bins_of output' n = bins_of output n) as Hb.
  { unfold bins_of. by rewrite Hcap. }
  rewrite Hb in Hrun3.
  eexists _, _, _. split; [exact Hrun3|].
  split; [|split; [|done]].
  - by rewrite !take_app_length' by (by rewrite length_magnitudes).
  - by intros ->.
Qed.

(** C8.  A call with [nfft <= 0] returns at once: same state, same output,
    no event. *)
Theorem computeFft_invalid_size g input output n :
  n ≤ 0 → computeFft g input output n = Some (g, elements output, []).
Proof. intros Hn. unfold computeFft. by rewrite bool_decide_true. Qed.

(** C9.  [cleanupFft] frees the configuration if one is held and frees
    nothing otherwise; afterwards no configuration is held and the cached
    size is 0; a second call changes nothing and frees nothing. *)
Theorem cleanupFft_idempotent g :
  cfg (cleanupFft g).1 = None ∧
  current_nfft (cleanupFft g).1 = 0 ∧
  (cleanupFft g).2 = match cfg g with Some c => [Free c] | None => [] end ∧
  cleanupFft (cleanupFft g).1 = ((cleanupFft g).1, []).
Proof. done. Qed.

End PipelineFacts.

(** *** Runs of the pipeline *)

Import Symbolic.

Lemma run4_returns :
  computeFft initial (samples 4) (zeros 2) 4 =
  Some (globals4, output4, log4).
Proof. reflexivity. Qed.

Lemma reachable_globals4 : reachable globals4.
Proof.
  eapply reachable_computeFft; [apply reachable_initial|apply run4_returns].
Qed.

(** The events of that call: four samples read, two magnitudes written. *)
Example log4_events :
  log4 =
  [ReadInput 0; ReadInput 1; ReadInput 2; ReadInput 3;
   WriteOutput 0; WriteOutput 1].
Proof. reflexivity. Qed.

(** For [nfft = 5] the divisor is [(float)2]. *)
Example magnitude_odd_divisor (c : kiss_fft_cpx term) :
  magnitude 5 c =
  Div (Sqrt (Add (Mul (r c) (r c)) (Mul (i c) (i c)))) (OfInt 2).
Proof. reflexivity. Qed.

Lemma computeFft_output_bounds_witness :
  ∃ g' out log,
    computeFft globals4 (samples 6) (zeros 2) 6 = Some (g', out, log) ∧
    writes log = [0; 1] ∧ reads log = [0; 1; 2; 3; 4; 5] ∧
    length out = 2%nat.
Proof.
  destruct (computeFft_output_bounds globals4 (samples 6) (zeros 2) 6 6)
    as (g' & out & log & Hrun & Hw & _ & _ & Hlen & _ & Hr & _).
  - apply reachable_globals4.
  - lia.
  - reflexivity.
  - reflexivity.
  - reflexivity.
  - simpl. lia.
  - exists g', out, log. by rewrite Hw, Hr, Hlen.
Defined.

Lemma computeFft_magnitudes_witness :
  ∃ g' out log,
    computeFft initial (samples 4) (zeros 2) 4 = Some (g', out, log) ∧
    ∀ k, 0 ≤ k < 2 →
      ∃ re im,
        load (kiss_fftr (4 : kiss_fftr_state)
                (windowed 4 (elements (samples 4)))) k = Some (Cpx re im) ∧
        load out k =
          Some (Div (Sqrt (Add (Mul re re) (Mul im im))) (OfInt 2)).
Proof.
  destruct (computeFft_magnitudes (@initial term term_fft) (samples 4)
              (zeros 2) 4 4)
    as (g' & out & log & Hrun & Hmag & _).
  - apply reachable_initial.
  - lia.
  - reflexivity.
  - reflexivity.
  - reflexivity.
  - simpl. lia.
  - exists g', out, log. split; [done|]. intros k Hk. by apply Hmag.
Defined.

(** C3 as stated fails: after a call at size 4, a call at size 3, for which
    no configuration can be allocated, leaves the cached size at 4, not 0. *)
Lemma alloc_failure_keeps_size :
  reachable globals4 ∧
  kiss_fftr_alloc 3 0 = (None : option (@kiss_fftr_state term _)) ∧
  ∃ g',
    computeFft globals4 (samples 3) (zeros 1) 3 =
      Some (g', elements (zeros 1), [Free (4 : kiss_fftr_state)]) ∧
    cfg g' = None ∧ current_nfft g' = 4 ∧ current_nfft g' ≠ 0.
Proof.
  split; [apply reachable_globals4|]. split; [reflexivity|].
  eexists. split; [reflexivity|]. done.
Qed.

Lemma computeFft_alloc_failure_witness :
  ∃ g' log,
    computeFft globals4 (samples 3) (zeros 1) 3 =
      Some (g', elements (zeros 1), log) ∧
    writes log = [] ∧
    cfg g' = None ∧
    current_nfft g' = current_nfft globals4 ∧
    window g' = window globals4 ∧
    fft_in g' = fft_in globals4 ∧
    fft_out g' = fft_out globals4 ∧
    ∃ fo fi,
      ensure g' 4 = Some (Globals (Some 4) 4 (hann_table 4) fo fi, [], true).
Proof.
  destruct (computeFft_alloc_failure globals4 (samples 3) (zeros 1) 3)
    as (g' & log & Hrun & Hw & Hc & Hn & Hwin & Hfi & Hfo & Hnext).
  - lia.
  - right. simpl. lia.
  - reflexivity.
  - exists g', log. do 7 (split; [done|]).
    apply (Hnext 4 4); [lia|reflexivity].
Defined.

(** C4 as stated fails at two observation points: in the initial state the
    cached size is 0 and the complex spectrum is empty, not of length
    [0/2 + 1]; after a call at size 4 and a cleanup the cached size is 0 and
    the window table still has 4 entries. *)
Lemma initial_not_sized :
  reachable (initial : globals term) ∧
  ¬ sized_for (initial : globals term) (current_nfft initial) ∧
  reachable (cleanupFft globals4).1 ∧
  ¬ sized_for (cleanupFft globals4).1 (current_nfft (cleanupFft globals4).1).
Proof.
  split; [apply reachable_initial|]. split.
  { intros (_ & _ & Hfo). simpl in Hfo. done. }
  split; [apply reachable_cleanupFft, reachable_globals4|].
  intros (Hw & _). simpl in Hw. done.
Qed.

Lemma reachable_sized_witness :
  (is_Some (cfg globals4) → current_nfft globals4 ≠ 0) ∧
  (current_nfft globals4 ≠ 0 → sized_for globals4 (current_nfft globals4)).
Proof. apply (reachable_sized globals4), reachable_globals4. Defined.

Lemma window_table_rebuilt_witness :
  window globals4 = hann_table 4 ∧
  load (hann_table 4) 1 =
    Some (Mul (Lit 1 2)
            (Sub (Lit 1 1)
               (Cos (ToFloat
                  (Div (Mul (Mul (ToDouble (Lit 2 1)) Pi) (OfInt 1))
                       (OfInt 3)))))).
Proof.
  destruct (window_table_rebuilt (@initial term term_fft) (samples 4)
              (zeros 2) 4 _ _ _ run4_returns)
    as (_ & Hcoef & Hre & _).
  split.
  - apply Hre; [lia|by left|by eexists].
  - apply (Hcoef 1). lia.
Defined.

Lemma reconfigure_same_output_witness :
  ∃ g1 out1 log1,
    computeFft initial (samples 4) (zeros 2) 4 = Some (g1, out1, log1) ∧
    ∀ g2 out2 log2,
      computeFft g1 (samples 6) (zeros 3) 6 = Some (g2, out2, log2) →
      ∃ g3 out3 log3,
        computeFft g2 (samples 4) (zeros 2) 4 = Some (g3, out3, log3) ∧
        out3 = out1 ∧ g3 = g1.
Proof.
  destruct (reconfigure_same_output (@initial term term_fft) (samples 4)
              (zeros 2) (zeros 2) 4 4 (samples 6) (zeros 3) 6)
    as (g1 & out1 & log1 & Hrun1 & Hnext).
  - apply reachable_initial.
  - lia.
  - reflexivity.
  - reflexivity.
  - reflexivity.
  - reflexivity.
  - simpl. lia.
  - reflexivity.
  - exists g1, out1, log1. split; [done|].
    intros g2 out2 log2 Hrun2.
    destruct (Hnext g2 out2 log2 Hrun2)
      as (g3 & out3 & log3 & Hrun3 & _ & Hout & Hg).
    exists g3, out3, log3. split; [done|]. split; [by apply Hout|done].
Defined.

Lemma computeFft_invalid_size_witness :
  computeFft globals4 (samples 4) (zeros 2) (-1) =
  Some (globals4, elements (zeros 2), []).
Proof.
  apply (computeFft_invalid_size globals4 (samples 4) (zeros 2) (-1)).
  lia.
Defined.

(** ** More on the analysis pipeline *)

(** A loop fails when one of its iterations fails in every state. *)
Lemma for_loop_fails {St} (n : nat) lo (body : Z → St → option St) (k : nat) s :
  (k < n)%nat → (∀ s1, body (lo + Z.of_nat k) s1 = None) →
  for_loop n lo body s = None.
Proof.
  revert lo k s. induction n as [|n IH]; intros lo k s Hk Hfail; [lia|].
  simpl. destruct k as [|k].
  - rewrite Z.add_0_r in Hfail. by rewrite Hfail.
  - destruct (body lo s) as [s1|]; [|done]. simpl.
    apply (IH _ k); [lia|]. intros s2.
    replace (lo + 1 + Z.of_nat k) with (lo + Z.of_nat (S k)) by lia. apply Hfail.
Qed.

Section PipelineMore.
Context {float double : Type} `{!FloatOps float double} `{!RealFFT float}.

Implicit Types (g : globals float) (input output : jfloatArray float).

Lemma frees_app (l1 l2 : list (event float)) :
  frees (l1 ++ l2) = frees l1 ++ frees l2.
Proof. apply omap_app. Qed.

Lemma frees_ReadInput (l : list Z) :
  frees ((ReadInput <$> l) : list (event float)) = [].
Proof. induction l as [|k l IH]; [done|]. simpl. done. Qed.

Lemma frees_WriteOutput (l : list Z) :
  frees ((WriteOutput <$> l) : list (event float)) = [].
Proof. induction l as [|k l IH]; [done|]. simpl. done. Qed.

Lemma frees_Free (l : list kiss_fftr_state) :
  frees ((Free <$> l) : list (event float)) = l.
Proof. induction l as [|k l IH]; [done|]. simpl. by f_equal. Qed.

Lemma reads_Free (l : list kiss_fftr_state) :
  reads ((Free <$> l) : list (event float)) = [].
Proof. induction l as [|k l IH]; [done|]. simpl. done. Qed.

Lemma writes_Free (l : list kiss_fftr_state) :
  writes ((Free <$> l) : list (event float)) = [].
Proof. induction l as [|k l IH]; [done|]. simpl. done. Qed.

Lemma frees_free_cfg g :
  frees (free_cfg g) = match cfg g with Some c => [c] | None => [] end.
Proof. unfold free_cfg. by destruct (cfg g). Qed.

(** X1.  In every reachable state a held configuration is the one
    [kiss_fftr_alloc] gives for the cached size, and that size is positive:
    the cache never pairs a configuration with another size. *)
Theorem reachable_cache_coherent g c :
  reachable g → cfg g = Some c →
  0 < current_nfft g ∧ kiss_fftr_alloc (current_nfft g) 0 = Some c.
Proof.
  intros Hg Hc. apply reachable_consistent in Hg as [Hsz Hcfg].
  destruct (Hcfg c Hc) as [Hnz Ha]. by destruct (Hsz Hnz) as (? & _).
Qed.

(** X2.  In every reachable state with a non-zero cached size the window
    is the Hann table of that size: no call leaves a table computed for
    another size, or a partly written one, behind. *)
Theorem reachable_window_hann g :
  reachable g → current_nfft g ≠ 0 → window g = hann_table (current_nfft g).
Proof.
  intros Hg Hnz. apply reachable_consistent in Hg as [Hsz _].
  by destruct (Hsz Hnz) as (_ & _ & ?).
Qed.

(** X3.  What a call that goes through computes does not depend on the
    state it starts from: from any two reachable states the same arguments
    give the same output elements and leave the same state. *)
Theorem computeFft_history_free g1 g2 input output n c :
  reachable g1 → reachable g2 → 0 < n → kiss_fftr_alloc n 0 = Some c →
  accessible input = true → accessible output = true →
  n ≤ Z.of_nat (length (elements input)) →
  ∃ g' out log1 log2,
    computeFft g1 input output n = Some (g', out, log1) ∧
    computeFft g2 input output n = Some (g', out, log2) ∧
    reads log1 = reads log2 ∧ writes log1 = writes log2.
Proof.
  intros Hg1 Hg2 Hn Ha Hin Hout Hlen.
  eexists _, _, _, _. split; [|split].
  - apply (computeFft_run g1 input output n c); try done.
    by apply reachable_consistent.
  - apply (computeFft_run g2 input output n c); try done.
    by apply reachable_consistent.
  - by rewrite !reads_run, !writes_run.
Qed.


(** Steps 2 to 6 only add reads of the input and, after them, writes of the
    output to the events of step 1. *)
Lemma window_loop_log n (inData w fi fi' : list float)
    (log log' : list (event float)) :
  for_range 0 n (window_body inData w) (fi, log) = Some (fi', log') →
  ∃ l, log' = log ++ (ReadInput <$> l).
Proof.
  unfold for_range. intros Hrun.
  apply (for_loop_preserves (λ s, ∃ l, s.2 = log ++ (ReadInput <$> l)))
    in Hrun; [done| |by exists []; rewrite app_nil_r].
  intros k [a l] [a' l'] [l0 Hl] Hb. unfold window_body in Hb. simpl in *.
  destruct (load inData k); [|done]. destruct (load w k); [|done].
  simpl in Hb. destruct (store a k _); [|done].
  injection Hb as _ <-. exists (l0 ++ [k]).
  by rewrite Hl, fmap_app, app_assoc.
Qed.

Lemma magnitude_loop_log n b (fo : list (kiss_fft_cpx float))
    (o o' : list float) (log log' : list (event float)) :
  for_range 0 b (magnitude_body n fo) (o, log) = Some (o', log') →
  ∃ l, log' = log ++ (WriteOutput <$> l).
Proof.
  unfold for_range. intros Hrun.
  apply (for_loop_preserves (λ s, ∃ l, s.2 = log ++ (WriteOutput <$> l)))
    in Hrun; [done| |by exists []; rewrite app_nil_r].
  intros k [a l] [a' l'] [l0 Hl] Hb. unfold magnitude_body in Hb. simpl in *.
  destruct (load fo k); [|done].
  simpl in Hb. destruct (store a k _); [|done].
  injection Hb as _ <-. exists (l0 ++ [k]).
  by rewrite Hl, fmap_app, app_assoc.
Qed.

Lemma computeFft_log g input output n g1 log1 continue g' out log :
  0 < n →
  ensure g n = Some (g1, log1, continue) →
  computeFft g input output n = Some (g', out, log) →
  ∃ l2 l3, log = log1 ++ (ReadInput <$> l2) ++ (WriteOutput <$> l3).
Proof.
  intros Hn He. unfold computeFft. rewrite bool_decide_false by lia.
  rewrite He. simpl.
  destruct continue; simpl;
    [|intros [= _ _ <-]; exists [], []; by rewrite app_nil_r].
  destruct (accessible input && accessible output); simpl;
    [|intros [= _ _ <-]; exists [], []; by rewrite app_nil_r].
  destruct (cfg g1) as [c|] eqn:Hc;
    [|intros [= _ _ <-]; exists [], []; by rewrite app_nil_r].
  destruct (for_range 0 n _ (fft_in g1, log1)) as [[fi l1]|] eqn:Hw; [|done].
  simpl. destruct (store_bins _ _) as [fo|] eqn:Hs; [|done].
  simpl. destruct (for_range 0 _ _ (elements output, l1)) as [[o l2]|] eqn:Hm;
    [|done].
  simpl. intros [= _ _ <-].
  apply window_loop_log in Hw as [r ->].
  apply magnitude_loop_log in Hm as [w ->].
  exists r, w. by rewrite app_assoc.
Qed.

Lemma ensure_log g n g1 log1 continue :
  ensure g n = Some (g1, log1, continue) → log1 = [] ∨ log1 = free_cfg g.
Proof.
  unfold ensure.
  destruct (match cfg g with Some _ => _ | None => _ end).
  - destruct (kiss_fftr_alloc n 0).
    + destruct (for_range 0 n _ _); [|done]. simpl. intros [= _ <- _]. by right.
    + intros [= _ <- _]. by right.
  - intros [= _ <- _]. by left.
Qed.

(** X5.  In every call that returns, the events come in three blocks: what
    is freed, then the reads of the input, then the writes of the output.
    No input element is read after an output element has been written. *)
Theorem computeFft_event_order g input output n g' out log :
  computeFft g input output n = Some (g', out, log) →
  ∃ l1 l2 l3,
    log = (Free <$> l1) ++ (ReadInput <$> l2) ++ (WriteOutput <$> l3) ∧
    l1 = frees log ∧ l2 = reads log ∧ l3 = writes log.
Proof.
  intros Hrun.
  assert (∃ l1 l2 l3,
            log = (Free <$> l1) ++ (ReadInput <$> l2) ++ (WriteOutput <$> l3))
    as (l1 & l2 & l3 & ->).
  { destruct (decide (n ≤ 0)) as [Hle|Hn].
    - unfold computeFft in Hrun. rewrite bool_decide_true in Hrun by done.
      injection Hrun as _ _ <-. by exists [], [], [].
    - destruct (ensure_is_Some g n) as [[[g1 log1] continue] He]; [lia|].
      destruct (computeFft_log g input output n _ _ _ _ _ _ ltac:(lia) He Hrun)
        as (l2 & l3 & ->).
      destruct (ensure_log g n _ _ _ He) as [->| ->].
      + by exists [], l2, l3.
      + unfold free_cfg. destruct (cfg g) as [c0|].
        * by exists [c0], l2, l3.
        * by exists [], l2, l3. }
  exists l1, l2, l3. split; [done|].
  rewrite !frees_app, !reads_app, !writes_app.
  rewrite frees_ReadInput, frees_WriteOutput, reads_ReadInput,
    reads_WriteOutput, writes_ReadInput, writes_WriteOutput, !app_nil_r.
  by rewrite frees_Free, reads_Free, writes_Free.
Qed.

(** X6.  A call frees a configuration exactly when one is held and a
    positive size other than the cached one is asked for, and then it frees
    that configuration, once; a call at the cached size, a call with
    [nfft <= 0] and a call with nothing held free nothing. *)
Theorem computeFft_frees g input output n g' out log :
  computeFft g input output n = Some (g', out, log) →
  frees log =
    match cfg g with
    | Some c0 => if bool_decide (0 < n ∧ current_nfft g ≠ n) then [c0] else []
    | None => []
    end.
Proof.
  intros Hrun. destruct (decide (n ≤ 0)) as [Hle|Hn].
  { unfold computeFft in Hrun. rewrite bool_decide_true in Hrun by done.
    injection Hrun as _ _ <-. destruct (cfg g); [|done].
    by rewrite bool_decide_false by lia. }
  destruct (ensure_is_Some g n) as [[[g1 log1] continue] He]; [lia|].
  destruct (computeFft_log g input output n _ _ _ _ _ _ ltac:(lia) He Hrun)
    as (l2 & l3 & ->).
  rewrite !frees_app, frees_ReadInput, frees_WriteOutput, !app_nil_r.
  unfold ensure in He. destruct (cfg g) as [c0|] eqn:Hc0.
  - case_bool_decide as Hne.
    + rewrite bool_decide_true by lia.
      assert (log1 = free_cfg g) as ->.
      { destruct (kiss_fftr_alloc n 0).
        - destruct (for_range 0 n _ _); [|done]. by injection He as _ <- _.
        - by injection He as _ <- _. }
      by rewrite frees_free_cfg, Hc0.
    + rewrite bool_decide_false by (intros [_ ?]; done).
      by injection He as _ <- _.
  - assert (log1 = free_cfg g) as ->.
    { destruct (kiss_fftr_alloc n 0).
      - destruct (for_range 0 n _ _); [|done]. by injection He as _ <- _.
      - by injection He as _ <- _. }
    by rewrite frees_free_cfg, Hc0.
Qed.

Lemma computeFft_no_buffers g input output n g1 log1 continue :
  0 < n → accessible input && accessible output = false →
  ensure g n = Some (g1, log1, continue) →
  computeFft g input output n = Some (g1, elements output, log1).
Proof.
  intros Hn Hacc He. unfold computeFft. rewrite bool_decide_false by lia.
  rewrite He. simpl. destruct continue; simpl; [|done]. by rewrite Hacc.
Qed.

(** X7.  When [GetFloatArrayElements] fails for the input or the output,
    the call reads and writes nothing and leaves the output as it was, but
    step 1 has already run: if a new configuration was due and could be
    allocated, it is now cached with its size and its window table. *)
Theorem computeFft_inaccessible g input output n :
  0 < n → accessible input && accessible output = false →
  ∃ g' log,
    computeFft g input output n = Some (g', elements output, log) ∧
    reads log = [] ∧ writes log = [] ∧
    ∀ c, kiss_fftr_alloc n 0 = Some c →
         cfg g = None ∨ current_nfft g ≠ n →
         cfg g' = Some c ∧ current_nfft g' = n ∧ window g' = hann_table n.
Proof.
  intros Hn Hacc.
  destruct (ensure_is_Some g n) as [[[g1 log1] continue] He]; [lia|].
  exists g1, log1. split; [by eapply computeFft_no_buffers|].
  assert (reads log1 = [] ∧ writes log1 = []) as [-> ->].
  { destruct (ensure_log g n _ _ _ He) as [->| ->]; [done|].
    by rewrite reads_free_cfg, writes_free_cfg. }
  split; [done|]. split; [done|].
  intros c Ha Hre. rewrite (ensure_rebuilt g n c) in He by (done || lia).
  by injection He as <- _ _.
Qed.

Lemma ensure_ready g n c :
  consistent g → 0 < n → kiss_fftr_alloc n 0 = Some c →
  ∃ g1 log1,
    ensure g n = Some (g1, log1, true) ∧ cfg g1 = Some c ∧
    window g1 = hann_table n.
Proof.
  intros [Hsz Hcfg] Hn Ha.
  destruct (cfg g) as [c0|] eqn:Hc0;
    [destruct (decide (current_nfft g = n)) as [Heq|Hne]|].
  - destruct (Hcfg c0 eq_refl) as [Hnz Ha0].
    destruct (Hsz Hnz) as (_ & _ & Hw). rewrite Heq in *.
    exists g, []. split; [by apply (ensure_cached g n c0)|].
    split; [congruence|done].
  - eexists _, _. split; [apply (ensure_rebuilt g n c); [by right|lia|done]|].
    done.
  - eexists _, _. split; [apply (ensure_rebuilt g n c); [by left|lia|done]|].
    done.
Qed.

(** X8.  The length of the input is never checked: a call that gets as far
    as the windowing loop with an input array of fewer than [nfft] elements
    reads [inData] past its end. *)
Theorem computeFft_short_input g input output n c :
  reachable g → 0 < n → kiss_fftr_alloc n 0 = Some c →
  accessible input = true → accessible output = true →
  Z.of_nat (length (elements input)) < n →
  computeFft g input output n = None ∧
  load (elements input) (Z.of_nat (length (elements input))) = None.
Proof.
  intros Hg Hn Ha Hin Hout Hlen.
  assert (load (elements input) (Z.of_nat (length (elements input))) = None)
    as Hload.
  { unfold load. rewrite bool_decide_true by lia.
    apply lookup_ge_None. lia. }
  split; [|done].
  destruct (ensure_ready g n c) as (g1 & log1 & He & Hc & _);
    [by apply reachable_consistent|done|done|].
  unfold computeFft. rewrite bool_decide_false by lia.
  rewrite He. simpl. rewrite Hin, Hout, Hc. simpl.
  assert (for_range 0 n (window_body (elements input) (window g1))
            (fft_in g1, log1) = None) as ->; [|done].
  unfold for_range.
  apply (for_loop_fails _ _ _ (length (elements input))); [lia|].
  intros [fi l]. unfold window_body. rewrite Z.add_0_l. by rewrite Hload.
Qed.

(** X9.  With an input of at least [nfft] elements a call from a reachable
    state never reads or writes outside an array, whatever the size asked
    for, the outcome of the allocation and the state of the two buffers. *)
Theorem computeFft_in_bounds g input output n :
  reachable g → n ≤ Z.of_nat (length (elements input)) →
  is_Some (computeFft g input output n).
Proof.
  intros Hg Hlen. destruct (decide (n ≤ 0)) as [Hle|Hn].
  { unfold computeFft. by rewrite bool_decide_true. }
  destruct (accessible input && accessible output) eqn:Hacc.
  - apply andb_true_iff in Hacc as [Hin Hout].
    destruct (kiss_fftr_alloc n 0) as [c|] eqn:Ha.
    + rewrite (computeFft_run g input output n c); try done; [|lia].
      by apply reachable_consistent.
    + destruct (ensure_is_Some g n) as [[[g1 log1] continue] He]; [lia|].
      assert (continue = false) as ->.
      { unfold ensure in He. rewrite Ha in He.
        destruct (cfg g) as [c0|] eqn:Hc0.
        - case_bool_decide as Hne; [by injection He as _ _ <-|].
          destruct (reachable_consistent g Hg) as [_ Hcfg].
          destruct (Hcfg c0 Hc0) as [_ Ha0]. congruence.
        - by injection He as _ _ <-. }
      unfold computeFft. rewrite bool_decide_false by lia.
      rewrite He. done.
  - destruct (ensure_is_Some g n) as [[[g1 log1] continue] He]; [lia|].
    rewrite (computeFft_no_buffers g input output n g1 log1 continue);
      [done|lia|done|done].
Qed.

(** X10.  Calling twice is calling once: after a call that goes through,
    the same call on the array the first one filled returns the same
    elements, leaves the same state, and frees nothing, the configuration of
    the first call being used again. *)
Theorem computeFft_twice g input output n c :
  reachable g → 0 < n → kiss_fftr_alloc n 0 = Some c →
  accessible input = true → accessible output = true →
  n ≤ Z.of_nat (length (elements input)) →
  ∃ g1 out1 log1 log2,
    computeFft g input output n = Some (g1, out1, log1) ∧
    computeFft g1 input (JFloatArray out1 true) n = Some (g1, out1, log2) ∧
    cfg g1 = Some c ∧ frees log2 = [] ∧
    reads log2 = reads log1 ∧ writes log2 = writes log1.
Proof.
  intros Hg Hn Ha Hin Hout Hlen.
  pose proof (reachable_consistent g Hg) as Hcons.
  pose proof (computeFft_run g input output n c Hcons Hn Ha Hin Hout Hlen)
    as Hrun1.
  pose proof (consistent_computeFft _ _ _ _ _ _ _ Hcons Hrun1) as Hcons1.
  remember ((magnitude n <$> take (Z.to_nat (bins_of output n))
               (kiss_fftr c (windowed n (elements input))))
            ++ drop (Z.to_nat (bins_of output n)) (elements output))
    as out1 eqn:Hout1.
  assert (bins_of (JFloatArray out1 true) n = bins_of output n) as Hb.
  { pose proof (bins_of_range output n Hn).
    unfold bins_of. simpl. rewrite Hout1.
    rewrite length_app, length_magnitudes, length_drop by done.
    f_equal. lia. }
  assert (drop (Z.to_nat (bins_of output n)) out1 =
          drop (Z.to_nat (bins_of output n)) (elements output)) as Hd.
  { rewrite Hout1. apply drop_app_length'. by rewrite length_magnitudes. }
  pose proof (computeFft_run _ input (JFloatArray out1 true) n c
                Hcons1 Hn Ha Hin eq_refl Hlen) as Hrun2.
  rewrite Hb in Hrun2. simpl in Hrun2. rewrite Hd, <- Hout1 in Hrun2.
  rewrite bool_decide_false in Hrun2 by (intros ?; done).
  eexists _, _, _, _. split; [exact Hrun1|]. split; [exact Hrun2|].
  split; [done|].
  rewrite !frees_app, frees_ReadInput, frees_WriteOutput.
  rewrite !reads_app, !writes_app, !reads_ReadInput, !reads_WriteOutput,
    !writes_ReadInput, !writes_WriteOutput.
  split; [done|].
  case_bool_decide; by rewrite ?reads_free_cfg, ?writes_free_cfg.
Qed.

End PipelineMore.

(** *** Runs that exhibit the properties above *)

Lemma reachable_cache_coherent_witness :
  0 < current_nfft globals4 ∧
  kiss_fftr_alloc (current_nfft globals4) 0 = Some (4 : kiss_fftr_state).
Proof.
  apply (reachable_cache_coherent globals4 4).
  - apply reachable_globals4.
  - reflexivity.
Defined.

Lemma reachable_window_hann_witness :
  window globals4 = hann_table (current_nfft globals4).
Proof.
  apply (reachable_window_hann globals4).
  - apply reachable_globals4.
  - simpl. lia.
Defined.

Lemma computeFft_history_free_witness :
  ∃ g' out log1 log2,
    computeFft initial (samples 6) (zeros 2) 6 = Some (g', out, log1) ∧
    computeFft globals4 (samples 6) (zeros 2) 6 = Some (g', out, log2) ∧
    reads log1 = reads log2 ∧ writes log1 = writes log2.
Proof.
  apply (computeFft_history_free (@initial term term_fft) globals4
           (samples 6) (zeros 2) 6 6).
  - apply reachable_initial.
  - apply reachable_globals4.
  - lia.
  - reflexivity.
  - reflexivity.
  - reflexivity.
  - simpl. lia.
Defined.


Lemma computeFft_event_order_witness :
  ∃ l1 l2 l3,
    log4 = (Free <$> l1) ++ (ReadInput <$> l2) ++ (WriteOutput <$> l3) ∧
    l1 = frees log4 ∧ l2 = reads log4 ∧ l3 = writes log4.
Proof.
  apply (computeFft_event_order (@initial term term_fft) (samples 4)
           (zeros 2) 4 globals4 output4 log4).
  reflexivity.
Defined.

Lemma computeFft_frees_witness :
  ∃ g' out log,
    computeFft globals4 (samples 6) (zeros 2) 6 = Some (g', out, log) ∧
    frees log = [4 : kiss_fftr_state].
Proof.
  destruct (computeFft globals4 (samples 6) (zeros 2) 6)
    as [[[g' out] log]|] eqn:Hrun.
  - exists g', out, log. split; [done|].
    apply (computeFft_frees globals4 (samples 6) (zeros 2) 6 g' out log Hrun).
  - vm_compute in Hrun. discriminate Hrun.
Defined.

Lemma computeFft_inaccessible_witness :
  ∃ g' log,
    computeFft initial (JFloatArray [] false) (zeros 2) 4 =
      Some (g', elements (zeros 2), log) ∧
    reads log = [] ∧ writes log = [] ∧
    ∀ c : kiss_fftr_state,
      kiss_fftr_alloc 4 0 = Some c →
      cfg (@initial term term_fft) = None ∨
        current_nfft (@initial term term_fft) ≠ 4 →
      cfg g' = Some c ∧ current_nfft g' = 4 ∧ window g' = hann_table 4.
Proof.
  apply (computeFft_inaccessible (@initial term term_fft)
           (JFloatArray [] false) (zeros 2) 4).
  - lia.
  - reflexivity.
Defined.

Lemma computeFft_short_input_witness :
  computeFft initial (samples 3) (zeros 2) 4 = None ∧
  load (elements (samples 3)) (Z.of_nat (length (elements (samples 3)))) =
    None.
Proof.
  apply (computeFft_short_input (@initial term term_fft) (samples 3)
           (zeros 2) 4 4).
  - apply reachable_initial.
  - lia.
  - reflexivity.
  - reflexivity.
  - reflexivity.
  - simpl. lia.
Defined.

Lemma computeFft_in_bounds_witness :
  is_Some (computeFft globals4 (samples 8) (zeros 2) 6).
Proof.
  apply (computeFft_in_bounds globals4 (samples 8) (zeros 2) 6).
  - apply reachable_globals4.
  - simpl. lia.
Defined.

Lemma computeFft_twice_witness :
  ∃ g1 out1 log1 log2,
    computeFft initial (samples 4) (zeros 2) 4 = Some (g1, out1, log1) ∧
    computeFft g1 (samples 4) (JFloatArray out1 true) 4 =
      Some (g1, out1, log2) ∧
    cfg g1 = Some (4 : kiss_fftr_state) ∧
    frees log2 = [] ∧ reads log2 = reads log1 ∧ writes log2 = writes log1.
Proof.
  apply (computeFft_twice (@initial term term_fft) (samples 4) (zeros 2) 4 4).
  - apply reachable_initial.
  - lia.
  - reflexivity.
  - reflexivity.
  - reflexivity.
  - simpl. lia.
Defined.

(** ** More on the generic butterfly *)


Section ButterflyMore.
Context {kiss_fft_scalar : Type}.
Variables s_add s_sub s_mul : kiss_fft_scalar → kiss_fft_scalar → kiss_fft_scalar.

Abbreviation cpx := (kiss_fft_cpx kiss_fft_scalar).
Abbreviation lane_sum := (lane_sum s_add s_sub s_mul).
Abbreviation lane_dft := (lane_dft s_add s_sub s_mul).
Abbreviation inner_body := (inner_body s_add s_sub s_mul).
Abbreviation output_body := (output_body s_add s_sub s_mul).
Abbreviation lane_body := (lane_body s_add s_sub s_mul).
Abbreviation kf_bfly_generic := (kf_bfly_generic s_add s_sub s_mul).







(** A loop whose body leaves the first component of the state as it is. *)
Lemma for_loop_fixed {A B} (P : B → Prop) (a : A) (n : nat) (hi : Z)
    (body : Z → A * B → option (A * B)) b :
  Z.of_nat n ≤ hi ∨ n = 0%nat → P b →
  (∀ j b1, 0 ≤ j < hi → P b1 → ∃ b2, body j (a, b1) = Some (a, b2) ∧ P b2) →
  ∃ b', for_loop n 0 body (a, b) = Some (a, b') ∧ P b'.
Proof.
  intros Hn Hb Hbody. induction n as [|n IH]; [by exists b|].
  destruct IH as (b1 & Hrun & Hb1); [lia|].
  destruct (Hbody (Z.of_nat n) b1) as (b2 & Hstep & Hb2); [lia|done|].
  exists b2. split; [|done]. rewrite for_loop_snoc, Hrun. simpl.
  by rewrite Z.add_0_l.
Qed.

(** X13.  With no lane or a radix below one the loops do not run: the
    call returns with the data as it was, and reads nothing. *)
Theorem kf_bfly_generic_no_work (Fout : list cpx) fstride st m p :
  m ≤ 0 ∨ p ≤ 0 →
  kf_bfly_generic Fout fstride st m p = Some Fout.
Proof.
  intros Hmp. unfold KissFFT.kf_bfly_generic, for_range.
  destruct (for_loop_fixed (λ _ : list (option cpx), True) Fout
              (Z.to_nat (m - 0)) m
              (lane_body fstride (nfft st) (twiddles st) m p)
              (replicate (Z.to_nat p) None))
    as (sc & -> & _); [lia|done| |done].
  intros j sc Hj _. exists sc. split; [|done].
  destruct Hmp as [Hm|Hp]; [lia|].
  unfold KissFFT.lane_body, for_range.
  by replace (Z.to_nat (p - 0)) with 0%nat by lia.
Qed.

(** X14.  Radix 1 is the identity: every element of the [m] lanes goes
    through the scratch cell and back, and the twiddle table is not read, so
    neither its contents nor its size matter. *)
Theorem kf_bfly_generic_radix1 (Fout : list cpx) fstride st m :
  m ≤ Z.of_nat (length Fout) →
  kf_bfly_generic Fout fstride st m 1 = Some Fout.
Proof.
  intros Hm. unfold KissFFT.kf_bfly_generic, for_range.
  destruct (for_loop_fixed (λ sc : list (option cpx), length sc = 1%nat) Fout
              (Z.to_nat (m - 0)) m
              (lane_body fstride (nfft st) (twiddles st) m 1)
              (replicate (Z.to_nat 1) None))
    as (sc & -> & _); [lia|done| |done].
  intros u sc Hu Hsc.
  destruct (load_lt Fout u ltac:(lia)) as [v Hv].
  exists (<[0%nat := Some v]> sc). split; [|by rewrite length_insert].
  unfold KissFFT.lane_body, for_range. simpl.
  unfold gather_body. rewrite Hv. simpl.
  rewrite store_lt by (rewrite Hsc; lia). simpl.
  unfold KissFFT.output_body, load_scratch.
  rewrite (load_insert_eq sc 0) by (rewrite Hsc; lia). simpl.
  rewrite store_lt by lia. simpl.
  apply load_Some in Hv as [_ Hv]. by rewrite list_insert_id.
Qed.

(** X15.  The lanes are independent: on two data arrays that agree on the
    [p] elements of lane [u], the butterfly leaves the same values in the
    [p] elements of that lane, whatever the other lanes hold. *)
Theorem kf_bfly_generic_lane_local (F1 F2 : list cpx) fstride st m p u :
  1 ≤ m → 1 ≤ p → fstride * m * p = nfft st →
  0 < nfft st ≤ 1073741824 →
  nfft st ≤ Z.of_nat (length (twiddles st)) →
  m * p ≤ Z.of_nat (length F1) → m * p ≤ Z.of_nat (length F2) →
  0 ≤ u < m →
  (∀ q, 0 ≤ q < p → load F1 (u + q * m) = load F2 (u + q * m)) →
  ∃ F1' F2',
    kf_bfly_generic F1 fstride st m p = Some F1' ∧
    kf_bfly_generic F2 fstride st m p = Some F2' ∧
    ∀ j, 0 ≤ j < p → load F1' (u + j * m) = load F2' (u + j * m).
Proof.
  intros Hm Hp Hdec HN Htw HF1 HF2 Hu Hsame.
  destruct (lanes_run s_add s_sub s_mul fstride (nfft st) m p (twiddles st)
              HN Htw Hm Hp Hdec F1 (Z.to_nat m) HF1 ltac:(lia))
    as (F1' & sc1 & Hrun1 & _ & _ & Hout1 & _).
  destruct (lanes_run s_add s_sub s_mul fstride (nfft st) m p (twiddles st)
              HN Htw Hm Hp Hdec F2 (Z.to_nat m) HF2 ltac:(lia))
    as (F2' & sc2 & Hrun2 & _ & _ & Hout2 & _).
  exists F1', F2'. unfold KissFFT.kf_bfly_generic, for_range.
  replace (Z.to_nat (m - 0)) with (Z.to_nat m) by lia.
  rewrite Hrun1, Hrun2. do 2 (split; [done|]).
  intros j Hj.
  destruct (Hout1 u j ltac:(lia) Hj) as [-> _].
  destruct (Hout2 u j ltac:(lia) Hj) as [-> _].
  unfold KissFFT.lane_dft. by apply lane_sum_ext.
Qed.

End ButterflyMore.

(** *** Runs of the butterfly on exact complex integers *)



Lemma kf_bfly_generic_no_work_witness :
  Exact.kf_bfly_generic Exact.ramp 1 Exact.st4 4 0 = Some Exact.ramp.
Proof.
  apply (kf_bfly_generic_no_work Z.add Z.sub Z.mul Exact.ramp 1 Exact.st4 4 0).
  right. lia.
Defined.

Lemma kf_bfly_generic_radix1_witness :
  Exact.kf_bfly_generic Exact.ramp 4 Exact.st4 4 1 = Some Exact.ramp.
Proof.
  apply (kf_bfly_generic_radix1 Z.add Z.sub Z.mul Exact.ramp 4 Exact.st4 4).
  simpl. lia.
Defined.

Lemma kf_bfly_generic_lane_local_witness :
  ∃ F1' F2',
    Exact.kf_bfly_generic Exact.ramp 1 Exact.st4 2 2 = Some F1' ∧
    Exact.kf_bfly_generic [Cpx 1 0; Cpx 9 9; Cpx 3 0; Cpx 7 7] 1 Exact.st4 2 2
      = Some F2' ∧
    ∀ j, 0 ≤ j < 2 → load F1' (0 + j * 2) = load F2' (0 + j * 2).
Proof.
  apply (kf_bfly_generic_lane_local Z.add Z.sub Z.mul Exact.ramp
           [Cpx 1 0; Cpx 9 9; Cpx 3 0; Cpx 7 7] 1 Exact.st4 2 2 0);
    try (simpl; lia).
  intros q Hq. assert (q = 0 ∨ q = 1) as [-> | ->] by lia; reflexivity.
Defined.

(** ** The fixed-point macros *)

Section FixedPointFacts.
Import KissFFT FixedPoint.
Variable FIXED_POINT : Z.

Abbreviation FB := (FRACBITS FIXED_POINT).
Abbreviation SM := (SAMP_MAX FIXED_POINT).

Lemma SAMP_MAX_pow : SM = 2 ^ FB - 1 ∧ 2 ^ FB = 2 * 2 ^ (FB - 1) ∧ 0 < 2 ^ (FB - 1).
Proof. unfold SAMP_MAX, FRACBITS. by case_bool_decide. Qed.

Lemma to_scalar_id z : - SM - 1 ≤ z ≤ SM → to_scalar FIXED_POINT z = z.
Proof.
  unfold to_scalar, wrap, SAMP_MAX, FRACBITS.
  case_bool_decide; simpl; intros Hz; rewrite Z.mod_small; lia.
Qed.

Lemma to_prod_id z : - (2 * (SM * SM)) ≤ z ≤ 2 * (SM * SM) → to_prod FIXED_POINT z = z.
Proof.
  unfold to_prod, wrap, SAMP_MAX, FRACBITS.
  case_bool_decide; simpl; intros Hz; rewrite Z.mod_small; lia.
Qed.

(** On a product that fits, [sround] is the division by [2^FRACBITS] rounded
    to the nearest integer, halves upwards. *)
Lemma sround_exact x :
  - (SM * SM) ≤ x ≤ SM * SM →
  sround FIXED_POINT x = (x + 2 ^ (FB - 1)) `div` 2 ^ FB ∧
  - SM ≤ sround FIXED_POINT x ≤ SM.
Proof.
  intros Hx. unfold sround.
  assert (Z.shiftl 1 (FB - 1) = 2 ^ (FB - 1)) as ->.
  { unfold FRACBITS. by case_bool_decide. }
  assert (0 ≤ FB) as HF by (unfold FRACBITS; case_bool_decide; lia).
  rewrite Z.shiftr_div_pow2 by done.
  assert (- SM ≤ (x + 2 ^ (FB - 1)) `div` 2 ^ FB ≤ SM) as Hy.
  { revert Hx. unfold SAMP_MAX, FRACBITS.
    case_bool_decide; simpl; intros Hx.
    - change (2 ^ 30) with 1073741824. change (2 ^ 31) with 2147483648.
      split; [apply Z.div_le_lower_bound; lia|].
      apply Z.lt_succ_r, Z.div_lt_upper_bound; lia.
    - change (2 ^ 14) with 16384. change (2 ^ 15) with 32768.
      split; [apply Z.div_le_lower_bound; lia|].
      apply Z.lt_succ_r, Z.div_lt_upper_bound; lia. }
  rewrite to_prod_id.
  - rewrite to_scalar_id by lia. done.
  - revert Hx. unfold SAMP_MAX, FRACBITS. case_bool_decide; simpl; lia.
Qed.

Lemma sround_error x :
  - (SM * SM) ≤ x ≤ SM * SM →
  - 2 ^ (FB - 1) ≤ x - 2 ^ FB * sround FIXED_POINT x < 2 ^ (FB - 1).
Proof.
  intros Hx. destruct (sround_exact x Hx) as [-> _].
  destruct SAMP_MAX_pow as (_ & H2 & Hh).
  pose proof (Z.div_mod (x + 2 ^ (FB - 1)) (2 ^ FB) ltac:(lia)) as Hdm.
  pose proof (Z.mod_pos_bound (x + 2 ^ (FB - 1)) (2 ^ FB) ltac:(lia)) as Hm.
  lia.
Qed.

Lemma SAMP_MAX_pos : 0 < SM.
Proof. unfold SAMP_MAX. case_bool_decide; lia. Qed.

Lemma prod_bound a b : - SM ≤ a ≤ SM → - SM ≤ b ≤ SM → - (SM * SM) ≤ a * b ≤ SM * SM.
Proof. pose proof SAMP_MAX_pos. generalize SM H. intros. nia. Qed.

Lemma smul_exact a b : - SM ≤ a ≤ SM → - SM ≤ b ≤ SM → smul FIXED_POINT a b = a * b.
Proof.
  intros Ha Hb. pose proof (prod_bound a b Ha Hb). pose proof SAMP_MAX_pos.
  unfold smul. rewrite (to_prod_id a) by nia. apply to_prod_id. lia.
Qed.

(** X16.  [S_MUL] on samples of [[SAMP_MIN, SAMP_MAX]]: no conversion
    wraps, the result is the product divided by [2^FRACBITS] and rounded to
    the nearest integer (halves upwards), and it is a sample of
    [[SAMP_MIN, SAMP_MAX]] again. *)
Theorem S_MUL_rounds a b :
  SAMP_MIN FIXED_POINT ≤ a ≤ SM → SAMP_MIN FIXED_POINT ≤ b ≤ SM →
  S_MUL FIXED_POINT a b = (a * b + 2 ^ (FB - 1)) `div` 2 ^ FB ∧
  SAMP_MIN FIXED_POINT ≤ S_MUL FIXED_POINT a b ≤ SM ∧
  - 2 ^ (FB - 1) ≤ a * b - 2 ^ FB * S_MUL FIXED_POINT a b < 2 ^ (FB - 1).
Proof.
  unfold SAMP_MIN, S_MUL. intros Ha Hb.
  rewrite (smul_exact a b Ha Hb).
  pose proof (prod_bound a b Ha Hb) as Hab.
  destruct (sround_exact _ Hab) as [He Hr].
  pose proof (sround_error _ Hab). done.
Qed.

Lemma square_bound a c : a * a + c * c ≤ SM * SM → - SM ≤ a ≤ SM.
Proof.
  pose proof SAMP_MAX_pos as HS. generalize SM HS. intros s Hs Hle.
  assert (a * a ≤ s * s) as H1 by nia.
  split.
  - assert (- a ≤ s); [|lia]. apply Z.square_le_simpl_nonneg; [lia|nia].
  - apply Z.square_le_simpl_nonneg; [lia|nia].
Qed.

Lemma cross_bound a c b d :
  a * a + c * c ≤ SM * SM → b * b + d * d ≤ SM * SM →
  - (SM * SM) ≤ a * b - c * d ≤ SM * SM ∧ - (SM * SM) ≤ a * d + c * b ≤ SM * SM.
Proof.
  pose proof SAMP_MAX_pos as HS. generalize SM HS. intros s Hs Ha Hb.
  assert ((a * b - c * d) * (a * b - c * d) + (a * d + c * b) * (a * d + c * b)
          = (a * a + c * c) * (b * b + d * d)) as Hid by ring.
  assert ((a * a + c * c) * (b * b + d * d) ≤ (s * s) * (s * s)) as Hle.
  { apply Z.mul_le_mono_nonneg; nia. }
  assert (0 ≤ s * s) by nia.
  remember (a * b - c * d) as T eqn:HT.
  remember (a * d + c * b) as U eqn:HU.
  remember ((a * a + c * c) * (b * b + d * d)) as AB eqn:HAB.
  clear HT HU HAB Ha Hb.
  assert (0 ≤ T * T) by nia. assert (0 ≤ U * U) by nia.
  assert (T * T ≤ (s * s) * (s * s)) as HTT by lia.
  assert (U * U ≤ (s * s) * (s * s)) as HUU by lia.
  assert (- T * - T ≤ (s * s) * (s * s)) as HTn by lia.
  assert (- U * - U ≤ (s * s) * (s * s)) as HUn by lia.
  apply Z.square_le_simpl_nonneg in HTT, HUU, HTn, HUn; try done.
  lia.
Qed.

(** X17.  [C_MUL] of two values of magnitude at most [SAMP_MAX], as a
    sample times a twiddle factor is: no product, difference, sum or
    conversion wraps, each component is the exact component of the complex
    product divided by [2^FRACBITS] and rounded, and it is a sample of
    [[SAMP_MIN, SAMP_MAX]]. *)
Theorem C_MUL_in_range (a b : kiss_fft_cpx Z) :
  r a * r a + i a * i a ≤ SM * SM →
  r b * r b + i b * i b ≤ SM * SM →
  C_MUL FIXED_POINT a b =
    Cpx ((r a * r b - i a * i b + 2 ^ (FB - 1)) `div` 2 ^ FB)
        ((r a * i b + i a * r b + 2 ^ (FB - 1)) `div` 2 ^ FB) ∧
  SAMP_MIN FIXED_POINT ≤ r (C_MUL FIXED_POINT a b) ≤ SM ∧
  SAMP_MIN FIXED_POINT ≤ i (C_MUL FIXED_POINT a b) ≤ SM.
Proof.
  intros Ha Hb. unfold SAMP_MIN, C_MUL.
  pose proof (square_bound _ _ Ha) as Har.
  pose proof (square_bound (i a) (r a) ltac:(lia)) as Hai.
  pose proof (square_bound _ _ Hb) as Hbr.
  pose proof (square_bound (i b) (r b) ltac:(lia)) as Hbi.
  destruct (cross_bound _ _ _ _ Ha Hb) as [Hre Him].
  rewrite !smul_exact by done.
  rewrite !to_prod_id by lia.
  destruct (sround_exact _ Hre) as [-> ?], (sround_exact _ Him) as [-> ?].
  done.
Qed.

(** X18.  [C_FIXDIV(c, div)] with [div >= 1] on a value whose components
    are samples of [[SAMP_MIN, SAMP_MAX]] scales each component [x] to
    [x * (SAMP_MAX / div)] divided by [2^FRACBITS] and rounded.  The result
    [y] is at most [SAMP_MAX / div] in absolute value, so that [div] such
    values add up to a sample, and it is the [div]-th part of [x] up to half
    a unit and never more: [2 * div * |y| <= 2 * |x| + div]. *)
Theorem C_FIXDIV_scales (c : kiss_fft_cpx Z) div :
  1 ≤ div →
  SAMP_MIN FIXED_POINT ≤ r c ≤ SM → SAMP_MIN FIXED_POINT ≤ i c ≤ SM →
  ∃ re im,
    C_FIXDIV FIXED_POINT c div = Some (Cpx re im) ∧
    re = (r c * (SM ÷ div) + 2 ^ (FB - 1)) `div` 2 ^ FB ∧
    im = (i c * (SM ÷ div) + 2 ^ (FB - 1)) `div` 2 ^ FB ∧
    Z.abs re ≤ SM ÷ div ∧ Z.abs im ≤ SM ÷ div ∧
    div * Z.abs re ≤ SM ∧ div * Z.abs im ≤ SM ∧
    2 * div * Z.abs re ≤ 2 * Z.abs (r c) + div ∧
    2 * div * Z.abs im ≤ 2 * Z.abs (i c) + div.
Proof.
  unfold SAMP_MIN. intros Hd Hr Hi.
  pose proof SAMP_MAX_pos as HS.
  destruct SAMP_MAX_pow as (HSp & H2 & Hh).
  assert (0 ≤ SM ÷ div ≤ SM ∧ div * (SM ÷ div) ≤ SM) as [Hq Hqd].
  { rewrite Z.quot_div_nonneg by lia.
    pose proof (Z.div_mod SM div ltac:(lia)).
    pose proof (Z.mod_pos_bound SM div ltac:(lia)).
    assert (0 ≤ SM `div` div) by (apply Z.div_pos; lia).
    split; [|lia]. split; [done|]. nia. }
  assert (∀ x, - SM ≤ x ≤ SM →
            DIVSCALAR FIXED_POINT x div =
              Some ((x * (SM ÷ div) + 2 ^ (FB - 1)) `div` 2 ^ FB) ∧
            Z.abs ((x * (SM ÷ div) + 2 ^ (FB - 1)) `div` 2 ^ FB) ≤ SM ÷ div ∧
            2 * div * Z.abs ((x * (SM ÷ div) + 2 ^ (FB - 1)) `div` 2 ^ FB)
              ≤ 2 * Z.abs x + div) as Hscale.
  { intros x Hx. unfold DIVSCALAR. rewrite bool_decide_false by lia.
    rewrite smul_exact by lia.
    pose proof (prod_bound x (SM ÷ div) Hx ltac:(lia)) as Hp.
    destruct (sround_exact _ Hp) as [He _].
    pose proof (sround_error _ Hp) as Herr. rewrite He in *.
    split; [done|].
    revert Herr Hqd Hq HSp H2 Hh Hx.
    generalize ((x * (SM ÷ div) + 2 ^ (FB - 1)) `div` 2 ^ FB).
    generalize (SM ÷ div). generalize (2 ^ (FB - 1)). generalize (2 ^ FB).
    generalize SM.
    intros s P h q y Herr Hqd Hq -> -> Hh Hx.
    assert (q * div ≤ 2 * h) by lia.
    split.
    - destruct (Z.abs_spec y) as [[? ->]|[? ->]]; nia.
    - assert (2 * h * (2 * div * Z.abs y) ≤ 2 * h * (2 * Z.abs x + div));
        [|nia].
      destruct (Z.abs_spec x) as [[? ->]|[? ->]],
               (Z.abs_spec y) as [[? ->]|[? ->]]; nia. }
  destruct (Hscale (r c) Hr) as (Hre & Hre1 & Hre2).
  destruct (Hscale (i c) Hi) as (Him & Him1 & Him2).
  eexists _, _. unfold C_FIXDIV. rewrite Hre, Him. simpl.
  do 5 (split; [done|]).
  split; [|split; [|done]].
  - etrans; [|apply Hqd]. apply Z.mul_le_mono_nonneg_l; [lia|done].
  - etrans; [|apply Hqd]. apply Z.mul_le_mono_nonneg_l; [lia|done].
Qed.

End FixedPointFacts.

(** *** The macros on concrete samples *)

(** [SAMP_MIN] is [-SAMP_MAX], one above the least value of the sample
    type: the square of that least value rounds to [SAMP_MAX + 1], which the
    conversion to the sample type turns into the least value again. *)
Example S_MUL_least_sample :
  FixedPoint.S_MUL 16 (-32768) (-32768) = -32768.
Proof. reflexivity. Qed.

Lemma S_MUL_rounds_witness :
  FixedPoint.S_MUL 16 16384 (-16385) = -8192 ∧
  FixedPoint.SAMP_MIN 16 ≤ FixedPoint.S_MUL 16 16384 (-16385)
    ≤ FixedPoint.SAMP_MAX 16.
Proof.
  destruct (S_MUL_rounds 16 16384 (-16385)) as (He & Hr & _).
  - unfold FixedPoint.SAMP_MIN, FixedPoint.SAMP_MAX. simpl. lia.
  - unfold FixedPoint.SAMP_MIN, FixedPoint.SAMP_MAX. simpl. lia.
  - split; [|exact Hr]. rewrite He. reflexivity.
Defined.

Lemma C_MUL_in_range_witness :
  FixedPoint.C_MUL 16 (KissFFT.Cpx 23169 23169) (KissFFT.Cpx 0 (-32767)) =
    KissFFT.Cpx 23168 (-23168).
Proof.
  destruct (C_MUL_in_range 16 (KissFFT.Cpx 23169 23169)
              (KissFFT.Cpx 0 (-32767))) as (He & _).
  - unfold FixedPoint.SAMP_MAX. simpl. lia.
  - unfold FixedPoint.SAMP_MAX. simpl. lia.
  - rewrite He. reflexivity.
Defined.

Lemma C_FIXDIV_scales_witness :
  ∃ re im,
    FixedPoint.C_FIXDIV 32 (KissFFT.Cpx 2147483647 (-2147483647)) 7 =
      Some (KissFFT.Cpx re im) ∧
    7 * Z.abs re ≤ FixedPoint.SAMP_MAX 32 ∧
    7 * Z.abs im ≤ FixedPoint.SAMP_MAX 32.
Proof.
  destruct (C_FIXDIV_scales 32 (KissFFT.Cpx 2147483647 (-2147483647)) 7)
    as (re & im & Hrun & _ & _ & _ & _ & Hre & Him & _).
  - lia.
  - unfold FixedPoint.SAMP_MIN, FixedPoint.SAMP_MAX. simpl. lia.
  - unfold FixedPoint.SAMP_MIN, FixedPoint.SAMP_MAX. simpl. lia.
  - exists re, im. split; [exact Hrun|]. split; [exact Hre|exact Him].
Defined.
